(** * Keyframe playback for servo channels: a model of [frames.py]

    The development embeds the tween curves, the per-channel interpolator,
    the pulse mapping and the playback loop of [animate_servos] and proves
    the properties stated for them.

    Numbers.  Python floats are idealised as exact rationals ([Q], compared
    with [==]); Python integers are [Z].  [int(x)] on a float truncates
    toward zero and is [py_int].

    Effects.  [time.time()] is an oracle: the successive readings of the
    wall clock are an input list, consumed one reading per call.  Calls on
    the servo controller, [time.sleep] and [print] are recorded, in order,
    in a trace of events.  Exceptions are explicit results. *)

From Stdlib Require Import QArith Qround Qabs Lqa Lia ZArith List String Ascii.
From Stdlib Require Import Morphisms Setoid.
From stdpp Require Import gmap.
Import ListNotations.

#[local] Open Scope Q_scope.

(** ** Comparisons and conversions of Python numbers *)

Module Py.

(** [x < y] on numbers, as a boolean. *)
Definition ltb (x y : Q) : bool := negb (Qle_bool y x).

(** [x <= y] on numbers, as a boolean. *)
Definition leb (x y : Q) : bool := Qle_bool x y.

(** [x == y] on numbers, as a boolean. *)
Definition eqb (x y : Q) : bool := Qeq_bool x y.

(** [int(x)] of a float: the integer part, rounding toward zero. *)
Definition py_int (x : Q) : Z := Z.quot (Qnum x) (Zpos (Qden x)).

(** Exceptions the modelled code can raise. *)
Inductive exn : Type :=
| ValueError
| IndexError
| KeyError
| ZeroDivisionError.

(** The result of an expression that may raise. *)
Inductive res (A : Type) : Type :=
| Ok (a : A)
| Exc (e : exn).
Arguments Ok {A} a.
Arguments Exc {A} e.

Definition bind {A B : Type} (r : res A) (k : A -> res B) : res B :=
  match r with
  | Ok a => k a
  | Exc e => Exc e
  end.

(** [x / y] on floats. *)
Definition py_div (x y : Q) : res Q :=
  if eqb y 0 then Exc ZeroDivisionError else Ok (x / y).

(** [l[0]]. *)
Definition first {A : Type} (l : list A) : res A :=
  match l with
  | [] => Exc IndexError
  | a :: _ => Ok a
  end.

(** [l[-1]]. *)
Fixpoint last {A : Type} (l : list A) : res A :=
  match l with
  | [] => Exc IndexError
  | [a] => Ok a
  | _ :: l' => last l'
  end.

(** [max(l)] of a non-empty list: the first of the largest elements. *)
Definition py_max (x : Q) (l : list Q) : Q :=
  fold_left (fun m y => if ltb m y then y else m) l x.

(** *** [int(s)] of a string, base ten

    Optional surrounding white space, an optional sign, then decimal
    digits, where single underscores may separate digits.  Digits outside
    ASCII are not modelled (they are rejected here). *)

Definition is_space (c : ascii) : bool :=
  let n := nat_of_ascii c in
  ((9 <=? n) && (n <=? 13) || (n =? 32))%nat.

Definition digit_of (c : ascii) : option Z :=
  let n := nat_of_ascii c in
  if ((48 <=? n) && (n <=? 57))%nat then Some (Z.of_nat (n - 48)) else None.

Fixpoint lstrip (s : list ascii) : list ascii :=
  match s with
  | c :: s' => if is_space c then lstrip s' else s
  | [] => []
  end.

Definition strip (s : list ascii) : list ascii :=
  rev (lstrip (rev (lstrip s))).

(** [after_digit] tells whether the previous character was a digit: an
    underscore is accepted only there, and the literal must end there. *)
Fixpoint digits (acc : Z) (after_digit : bool) (s : list ascii) : option Z :=
  match s with
  | [] => if after_digit then Some acc else None
  | c :: s' =>
      match digit_of c with
      | Some d => digits (10 * acc + d)%Z true s'
      | None =>
          if (Ascii.eqb c "_" && after_digit)%bool then digits acc false s'
          else None
      end
  end.

Definition int_of_str (s : string) : res Z :=
  let body := strip (list_ascii_of_string s) in
  let parsed :=
    match body with
    | "-"%char :: ds => option_map Z.opp (digits 0 false ds)
    | "+"%char :: ds => digits 0 false ds
    | ds => digits 0 false ds
    end in
  match parsed with
  | Some z => Ok z
  | None => Exc ValueError
  end.

End Py.

#[global] Instance res_ret : MRet Py.res := @Py.Ok.
#[global] Instance res_bind : MBind Py.res := fun A B k r => Py.bind r k.

(** ** Tweening curves *)

Definition linear (t : Q) : Q := t.

(** The two formulas of each piecewise curve are named, so that the seam
    at [t = 0.5] can be stated on them. *)
Definition quad_first_half (t : Q) : Q := 2 * t * t.
Definition quad_second_half (t : Q) : Q := -2 * t * t + 4 * t - 1.

Definition ease_in_out_quad (t : Q) : Q :=
  if Py.ltb t 0.5 then quad_first_half t
  else quad_second_half t.

Definition cubic_first_half (t : Q) : Q := 4 * t * t * t.
Definition cubic_second_half (t : Q) : Q :=
  4 * t * t * t - 12 * t * t + 12 * t - 3.

Definition ease_in_out_cubic (t : Q) : Q :=
  if Py.ltb t 0.5 then cubic_first_half t
  else cubic_second_half t.

(** ** The channel interpolator: [scipy.interpolate.interp1d]

    [interp1d(x, y, kind='linear', bounds_error=False, fill_value=(b, a))]
    is library code.  It is modelled after its documented behaviour: [x] and
    [y] must have the same length and at least one entry; with the default
    [assume_sorted=False] the points are first sorted by [x] (a stable sort);
    a query below the smallest [x] yields [b], a query above the largest [x]
    yields [a], and a query in range is interpolated linearly between the
    two points that bracket it, as [numpy.interp] does. *)

Module Interp.

Record t : Type := Build {
  points : list (Q * Q);      (* sorted by time *)
  fill_below : Q;
  fill_above : Q
}.

(** Stable insertion of a point in a list sorted by time. *)
Fixpoint insert (p : Q * Q) (l : list (Q * Q)) : list (Q * Q) :=
  match l with
  | [] => [p]
  | q :: l' => if Py.leb (fst p) (fst q) then p :: l else q :: insert p l'
  end.

Definition sort (l : list (Q * Q)) : list (Q * Q) :=
  fold_right insert [] l.

Definition interp1d (x y : list Q) (fill_value : Q * Q) : Py.res t :=
  if negb (length x =? length y)%nat then Py.Exc Py.ValueError
  else if (length x <? 1)%nat then Py.Exc Py.ValueError
  else Py.Ok (Build (sort (combine x y)) (fst fill_value) (snd fill_value)).

(** [numpy.interp] at [x], from the point [(xj, yj)] onward, knowing that
    [xj <= x]: move on while the next point is not after [x]. *)
Fixpoint walk (xj yj : Q) (rest : list (Q * Q)) (x : Q) : Q :=
  match rest with
  | [] => yj
  | (x1, y1) :: rest' =>
      if Py.leb x1 x then walk x1 y1 rest' x
      else if Py.eqb xj x then yj
      else (y1 - yj) / (x1 - xj) * (x - xj) + yj
  end.

Definition last_time (l : list (Q * Q)) : Q :=
  fst (List.last l (0, 0)).

(** The call [interpolator(x)]. *)
Definition evaluate (f : t) (x : Q) : Q :=
  match points f with
  | [] => 0
  | (x0, y0) :: rest =>
      if Py.ltb x x0 then fill_below f
      else if Py.ltb (last_time (points f)) x then fill_above f
      else walk x0 y0 rest x
  end.

End Interp.

(** ** The actuation mapping *)

(** [min_us + (max_us - min_us) * normalized_target], before [int]. *)
Definition pulse (cfg : Q * Q) (normalized_target : Q) : Q :=
  fst cfg + (snd cfg - fst cfg) * normalized_target.

Definition pulse_us (cfg : Q * Q) (normalized_target : Q) : Z :=
  Py.py_int (pulse cfg normalized_target).

Definition maestro_target (cfg : Q * Q) (normalized_target : Q) : Z :=
  (pulse_us cfg normalized_target * 4)%Z.

(** ** Events and outcomes of a run *)

Inductive event : Type :=
| Warning (channel : Z)                  (* print: servo not in config *)
| KeyframeAt (time : Q)                  (* print: keyframe time passed *)
| SetTarget (channel : Z) (target : Z)   (* servo_controller.setTarget *)
| Sleep (seconds : Q)                    (* time.sleep *)
| FinalTarget (channel : Z) (target : Z) (* print: final servo target *).

Inductive outcome : Type :=
| Returned                (* the function returned *)
| Raised (e : Py.exn)     (* an exception left the function *)
| ClockExhausted          (* the run needs more clock readings than given *).

(** ** [animate_servos] *)

(** A Python [dict] keyed by channel, in insertion order: assigning to a key
    that is present replaces its value in place, a new key goes last. *)
Fixpoint dict_set {V : Type} (k : Z) (v : V) (d : list (Z * V)) : list (Z * V) :=
  match d with
  | [] => [(k, v)]
  | (k', v') :: d' =>
      if (k =? k')%Z then (k, v) :: d' else (k', v') :: dict_set k v d'
  end.

(** [sorted(list(set(all_times)))]: one representative of each time, in
    increasing order. *)
Fixpoint unique (l : list Q) : list Q :=
  match l with
  | [] => []
  | x :: l' => x :: List.filter (fun y => negb (Py.eqb x y)) (unique l')
  end.

Fixpoint insert_time (x : Q) (l : list Q) : list Q :=
  match l with
  | [] => [x]
  | y :: l' => if Py.leb x y then x :: l else y :: insert_time x l'
  end.

Definition sorted (l : list Q) : list Q := fold_right insert_time [] l.

Definition update_interval : Q := 0.01.

Section AnimateServos.

Variable servo_config : gmap Z (Q * Q).
Variable tween_func : Q -> Q.

(** Lines 41-45 without the bookkeeping of [all_times]: the interpolator
    of one track.  [positions[0]] and [positions[-1]] are evaluated before
    [interp1d] is called. *)
Definition make_interpolator (track : list (Q * Q)) : Py.res Interp.t :=
  let times := map fst track in
  let positions := map snd track in
  p0 ← Py.first positions;
  pn ← Py.last positions;
  Interp.interp1d times positions (p0, pn).

(** The first loop of the function (lines 36-45): one interpolator per
    configured channel, and the times of all their keyframes.  [items] is
    [keyframes.items()]: channel strings with their tracks of
    [[time, position]] pairs, in the order of the dict. *)
Fixpoint build (items : list (string * list (Q * Q)))
    (interpolators : list (Z * Interp.t)) (all_times : list Q)
    : list event * Py.res (list (Z * Interp.t) * list Q) :=
  match items with
  | [] => ([], Py.Ok (interpolators, all_times))
  | (channel_str, track) :: items' =>
      match Py.int_of_str channel_str with
      | Py.Exc e => ([], Py.Exc e)
      | Py.Ok channel =>
          match servo_config !! channel with
          | None =>
              let '(out, r) := build items' interpolators all_times in
              (Warning channel :: out, r)
          | Some _ =>
              let all_times := all_times ++ map fst track in
              match make_interpolator track with
              | Py.Exc e => ([], Py.Exc e)
              | Py.Ok f =>
                  build items' (dict_set channel f interpolators) all_times
              end
          end
      end
  end.

Variable interpolators : list (Z * Interp.t).
Variable start_time : Q.
Variable total_duration : Q.
Variable unique_keyframe_times : list Q.

(** Line 68. *)
Definition progress (elapsed_time : Q) : Py.res Q :=
  if Py.ltb 0 total_duration then Py.py_div elapsed_time total_duration
  else Py.Ok 0.

(** Lines 68-70. *)
Definition tweened_time (elapsed_time : Q) : Py.res Q :=
  progress ← progress elapsed_time;
  let tweened_progress := tween_func progress in
  Py.Ok (tweened_progress * total_duration).

(** Lines 72-82: the commands of one tick, channel by channel. *)
Fixpoint set_targets (channels : list (Z * Interp.t)) (tweened_time : Q)
    : list event * Py.res unit :=
  match channels with
  | [] => ([], Py.Ok tt)
  | (channel, interpolator) :: channels' =>
      let normalized_target := Interp.evaluate interpolator tweened_time in
      match servo_config !! channel with
      | None => ([], Py.Exc Py.KeyError)
      | Some cfg =>
          let '(out, r) := set_targets channels' tweened_time in
          (SetTarget channel (maestro_target cfg normalized_target) :: out, r)
      end
  end.

(** Lines 91-98: the final pass. *)
Fixpoint final_targets (channels : list (Z * Interp.t))
    : list event * Py.res unit :=
  match channels with
  | [] => ([], Py.Ok tt)
  | (channel, interpolator) :: channels' =>
      let final_position := Interp.evaluate interpolator total_duration in
      match servo_config !! channel with
      | None => ([], Py.Exc Py.KeyError)
      | Some cfg =>
          let target := maestro_target cfg final_position in
          let '(out, r) := final_targets channels' in
          (SetTarget channel target :: FinalTarget channel target :: out, r)
      end
  end.

(** Lines 63-65: the message when a keyframe time is passed. *)
Definition keyframe_message (elapsed_time : Q) (next_keyframe_idx : nat)
    : list event * nat :=
  match nth_error unique_keyframe_times next_keyframe_idx with
  | Some t =>
      if Py.leb t elapsed_time then ([KeyframeAt t], S next_keyframe_idx)
      else ([], next_keyframe_idx)
  | None => ([], next_keyframe_idx)
  end.

(** Lines 62-82: what one iteration does between the test of the loop
    exit and the sleep.  The result is the next keyframe index. *)
Definition tick (elapsed_time : Q) (next_keyframe_idx : nat)
    : list event * Py.res nat :=
  let '(msg, next_keyframe_idx) :=
    keyframe_message elapsed_time next_keyframe_idx in
  match tweened_time elapsed_time with
  | Py.Exc e => (msg, Py.Exc e)
  | Py.Ok tweened =>
      match set_targets interpolators tweened with
      | (cmds, Py.Exc e) => (msg ++ cmds, Py.Exc e)
      | (cmds, Py.Ok _) => (msg ++ cmds, Py.Ok next_keyframe_idx)
      end
  end.

(** Lines 85-88. *)
Definition nap (loop_start_time now : Q) : list event :=
  let processing_time := now - loop_start_time in
  let sleep_time := update_interval - processing_time in
  if Py.ltb 0 sleep_time then [Sleep sleep_time] else [].

(** Lines 55-88: the running loop.  Each iteration reads the clock at its
    start and, unless it leaves the loop, once more before sleeping.  The
    outcome [Returned] means that the loop was left by [break]. *)
Fixpoint playback_loop (clock : list Q) (next_keyframe_idx : nat)
    : list event * outcome :=
  match clock with
  | [] => ([], ClockExhausted)
  | loop_start_time :: clock1 =>
      let elapsed_time := loop_start_time - start_time in
      if Py.ltb total_duration elapsed_time then ([], Returned)
      else
        match tick elapsed_time next_keyframe_idx with
        | (out, Py.Exc e) => (out, Raised e)
        | (out, Py.Ok next_keyframe_idx) =>
            match clock1 with
            | [] => (out, ClockExhausted)
            | now :: clock2 =>
                let '(out', o) := playback_loop clock2 next_keyframe_idx in
                (out ++ nap loop_start_time now ++ out', o)
            end
        end
  end.

End AnimateServos.

(** Line 48. *)
Definition duration_of (all_times : list Q) : Q :=
  match all_times with
  | [] => 0
  | t :: ts => Py.py_max t ts
  end.

(** The whole function.  [clock] holds the readings of [time.time()]. *)
Definition animate_servos (clock : list Q)
    (keyframes : list (string * list (Q * Q)))
    (servo_config : gmap Z (Q * Q)) (tween_func : Q -> Q)
    : list event * outcome :=
  match build servo_config keyframes [] [] with
  | (warnings, Py.Exc e) => (warnings, Raised e)
  | (warnings, Py.Ok (interpolators, all_times)) =>
      match clock with
      | [] => (warnings, ClockExhausted)
      | start_time :: clock' =>
          let total_duration := duration_of all_times in
          let unique_keyframe_times := sorted (unique all_times) in
          match playback_loop servo_config tween_func interpolators
                  start_time total_duration unique_keyframe_times clock' 0 with
          | (played, Returned) =>
              match final_targets servo_config total_duration interpolators with
              | (final, Py.Ok _) => (warnings ++ played ++ final, Returned)
              | (final, Py.Exc e) => (warnings ++ played ++ final, Raised e)
              end
          | (played, o) => (warnings ++ played, o)
          end
      end
  end.

(** ** Notions used in the statements *)

(** [z] is [x] with its fractional part dropped. *)
Definition truncates (x : Q) (z : Z) : Prop :=
  (0 <= x -> inject_Z z <= x < inject_Z z + 1) /\
  (x <= 0 -> inject_Z z - 1 < x <= inject_Z z).

(** The commands the servo controller received, in order. *)
Definition commands (trace : list event) : list (Z * Z) :=
  flat_map (fun e => match e with
                     | SetTarget c t => [(c, t)]
                     | _ => []
                     end) trace.

(** The times of a track increase strictly: sorted, no time twice. *)
Fixpoint increasing (track : list (Q * Q)) : Prop :=
  match track with
  | p :: (q :: _) as track' => fst p < fst q /\ increasing track'
  | _ => True
  end.

(** The range of a channel ([servo_config[channel]]); the default stands
    for a channel that is not configured and is never used for one. *)
Definition config_of (servo_config : gmap Z (Q * Q)) (channel : Z) : Q * Q :=
  default (0, 0) (servo_config !! channel).

(** The commands for a list of normalized values, channel by channel. *)
Definition mapped (servo_config : gmap Z (Q * Q)) (values : list (Z * Q))
    : list (Z * Z) :=
  map (fun cv => (fst cv, maestro_target (config_of servo_config (fst cv))
                            (snd cv))) values.

(** The sampling operation as the specification words it (section 4.3):
    the progress is [elapsed_time / total_duration] when the duration is
    positive and 0 otherwise, the tweened time is the tween of the progress
    times the duration, and each channel gets its interpolator's value
    there.  It is compared below with what the loop computes. *)
Module Engine.

Definition progress (total_duration elapsed_time : Q) : Q :=
  if Py.ltb 0 total_duration then elapsed_time / total_duration else 0.

Definition tweened_time (tween : Q -> Q) (total_duration elapsed_time : Q)
    : Q :=
  tween (progress total_duration elapsed_time) * total_duration.

Definition sample (tween : Q -> Q) (total_duration : Q)
    (interpolators : list (Z * Interp.t)) (elapsed_time : Q)
    : list (Z * Q) :=
  map (fun cf => (fst cf,
                  Interp.evaluate (snd cf)
                    (tweened_time tween total_duration elapsed_time)))
      interpolators.

End Engine.

(** An item of [keyframes] that the first loop does not skip: its key is
    the number of a configured channel, or is no number at all. *)
Definition is_configured_item (servo_config : gmap Z (Q * Q))
    (item : string * list (Q * Q)) : bool :=
  match Py.int_of_str (fst item) with
  | Py.Ok channel =>
      match servo_config !! channel with
      | Some _ => true
      | None => false
      end
  | Py.Exc _ => true
  end.

(** [keyframes] without the channels that are not configured. *)
Definition configured_only (servo_config : gmap Z (Q * Q))
    (keyframes : list (string * list (Q * Q)))
    : list (string * list (Q * Q)) :=
  List.filter (is_configured_item servo_config) keyframes.

(** The clock readings of a sequence of iterations that stay in the loop:
    each reads the clock at its start and once more before it sleeps. *)
Definition readings (ticks : list (Q * Q)) : list Q :=
  flat_map (fun ab => [fst ab; snd ab]) ticks.

(** The keyframe times announced in a trace, in order. *)
Definition keyframe_messages (trace : list event) : list Q :=
  flat_map (fun e => match e with
                     | KeyframeAt t => [t]
                     | _ => []
                     end) trace.

(** [d[k]] for a dict in insertion order, when [k] is present. *)
Fixpoint dict_get {V : Type} (k : Z) (d : list (Z * V)) : option V :=
  match d with
  | [] => None
  | (k', v) :: d' => if (k =? k')%Z then Some v else dict_get k d'
  end.

(** Line 107 of the driver: [{int(k): v for k, v in items}], the
    configuration with its channel strings turned into numbers.  A later
    item replaces an earlier one for the same channel. *)
Fixpoint servo_config_of (items : list (string * (Q * Q)))
    (acc : gmap Z (Q * Q)) : Py.res (gmap Z (Q * Q)) :=
  match items with
  | [] => Py.Ok acc
  | (k, v) :: items' =>
      match Py.int_of_str k with
      | Py.Ok channel => servo_config_of items' (<[channel := v]> acc)
      | Py.Exc e => Py.Exc e
      end
  end.

(** ** A sample run *)

Module Demo.

Definition servo_config : gmap Z (Q * Q) :=
  {[ 0%Z := (1000, 2000); 1%Z := (500, 2500) ]}.

Definition keyframes : list (string * list (Q * Q)) :=
  [("0"%string, [(0, 0); (2, 1)]);
   ("9"%string, [(0, 0.5)]);
   ("1"%string, [(0, 0.8); (1, 0.2)])].

Definition clock : list Q :=
  [100; 100; 100.005; 101; 101.2; 102; 102.001; 102.5].

End Demo.

(** ** Notions used for the further properties *)

(** What is known of a [Sleep] event of a run on [clock]. *)
Definition sleep_ok (clock : list Q) (e : event) : Prop :=
  match e with
  | Sleep d =>
      0 < d /\
      exists pre a b post,
        clock = pre ++ a :: b :: post /\ d = update_interval - (b - a)
  | _ => True
  end.

Definition no_sleep (e : event) : Prop :=
  match e with
  | Sleep _ => False
  | _ => True
  end.

(** No two elements of the list are equal numbers. *)
Fixpoint distinct (l : list Q) : Prop :=
  match l with
  | [] => True
  | x :: l' => Forall (fun y => ~ x == y) l' /\ distinct l'
  end.

(** Every element is below all the later ones. *)
Fixpoint ascending (l : list Q) : Prop :=
  match l with
  | [] => True
  | x :: l' => Forall (fun y => x < y) l' /\ ascending l'
  end.

Fixpoint nondecreasing (l : list Q) : Prop :=
  match l with
  | [] => True
  | x :: l' => Forall (fun y => x <= y) l' /\ nondecreasing l'
  end.

Definition no_keyframe (e : event) : Prop :=
  match e with
  | KeyframeAt _ => False
  | _ => True
  end.

(** * Properties *)

(** ** Comparisons *)

Lemma ltb_lt (x y : Q) : Py.ltb x y = true <-> x < y.
Proof.
  unfold Py.ltb. rewrite negb_true_iff, <- not_true_iff_false, Qle_bool_iff.
  split; [apply Qnot_le_lt | apply Qlt_not_le].
Qed.

Lemma ltb_ge (x y : Q) : Py.ltb x y = false <-> y <= x.
Proof.
  unfold Py.ltb. rewrite negb_false_iff. apply Qle_bool_iff.
Qed.

Lemma leb_le (x y : Q) : Py.leb x y = true <-> x <= y.
Proof. apply Qle_bool_iff. Qed.

Lemma leb_gt (x y : Q) : Py.leb x y = false <-> y < x.
Proof.
  unfold Py.leb. rewrite <- not_true_iff_false, Qle_bool_iff.
  split; [apply Qnot_le_lt | apply Qlt_not_le].
Qed.

Lemma eqb_eq (x y : Q) : Py.eqb x y = true <-> x == y.
Proof. apply Qeq_bool_iff. Qed.

Lemma eqb_neq (x y : Q) : Py.eqb x y = false <-> ~ x == y.
Proof.
  unfold Py.eqb. rewrite <- not_true_iff_false, Qeq_bool_iff. reflexivity.
Qed.

(** Case analysis on a comparison, with the fact in the context. *)
Ltac case_ltb x y :=
  let H := fresh "Hlt" in
  destruct (Py.ltb x y) eqn:H; [apply ltb_lt in H | apply ltb_ge in H].
Ltac case_leb x y :=
  let H := fresh "Hle" in
  destruct (Py.leb x y) eqn:H; [apply leb_le in H | apply leb_gt in H].
Ltac case_eqb x y :=
  let H := fresh "Heq" in
  destruct (Py.eqb x y) eqn:H; [apply eqb_eq in H | apply eqb_neq in H].

(** ** Truncation toward zero *)

Lemma py_int_nonneg (x : Q) : 0 <= x -> Py.py_int x = Qfloor x.
Proof.
  destruct x as [n d]. unfold Py.py_int, Qfloor, Qle. cbn. intros H.
  apply Z.quot_div_nonneg; lia.
Qed.

Lemma py_int_nonpos (x : Q) : x <= 0 -> Py.py_int x = Qceiling x.
Proof.
  destruct x as [n d]. unfold Py.py_int, Qceiling, Qle. cbn. intros H.
  rewrite <- (Z.opp_involutive n) at 1.
  rewrite Z.quot_opp_l by lia.
  f_equal. apply Z.quot_div_nonneg; lia.
Qed.

Lemma py_int_truncates (x : Q) : truncates x (Py.py_int x).
Proof.
  split; intros H.
  - rewrite (py_int_nonneg x H). split; [apply Qfloor_le|].
    generalize (Qlt_floor x). rewrite inject_Z_plus. trivial.
  - rewrite (py_int_nonpos x H). split; [|apply Qle_ceiling].
    generalize (Qceiling_lt x). unfold Z.sub. rewrite inject_Z_plus. trivial.
Qed.

Lemma py_int_inject (z : Z) : Py.py_int (inject_Z z) = z.
Proof. unfold Py.py_int. cbn. apply Z.quot_1_r. Qed.

#[global] Instance py_int_proper : Proper (Qeq ==> eq) Py.py_int.
Proof.
  intros x y E. destruct (Qlt_le_dec x 0) as [H|H].
  - rewrite !py_int_nonpos; [now apply Qceiling_comp | lra | lra].
  - rewrite !py_int_nonneg; [now apply Qfloor_comp | lra | lra].
Qed.

Lemma py_int_mono (x y : Q) : x <= y -> (Py.py_int x <= Py.py_int y)%Z.
Proof.
  intros H. destruct (Qlt_le_dec x 0) as [Hx|Hx], (Qlt_le_dec y 0) as [Hy|Hy].
  - rewrite !py_int_nonpos by lra. now apply Qceiling_resp_le.
  - rewrite (py_int_nonpos x), (py_int_nonneg y) by lra.
    transitivity 0%Z.
    + rewrite <- (Qceiling_Z 0). apply Qceiling_resp_le.
      change (x <= 0). lra.
    + rewrite <- (Qfloor_Z 0). apply Qfloor_resp_le.
      change (0 <= y). lra.
  - lra.
  - rewrite !py_int_nonneg by lra. now apply Qfloor_resp_le.
Qed.

(** ** The tween curves *)

Lemma cube_bounds (s : Q) : 0 <= s <= 1 # 2 -> 0 <= s * s * s <= 1 # 8.
Proof.
  intros [H0 H1].
  assert (Hsq : 0 <= s * s <= 1 # 4) by nra.
  split; nra.
Qed.

Lemma quad_range (t : Q) : 0 <= t <= 1 -> 0 <= ease_in_out_quad t <= 1.
Proof.
  intros [H0 H1]. unfold ease_in_out_quad.
  case_ltb t 0.5.
  - unfold quad_first_half. split; nra.
  - unfold quad_second_half. split; nra.
Qed.

Lemma cubic_range (t : Q) : 0 <= t <= 1 -> 0 <= ease_in_out_cubic t <= 1.
Proof.
  intros [H0 H1]. unfold ease_in_out_cubic.
  case_ltb t 0.5.
  - unfold cubic_first_half.
    destruct (cube_bounds t) as [Ha Hb]; [lra|]. lra.
  - unfold cubic_second_half.
    destruct (cube_bounds (1 - t)) as [Ha Hb]; [lra|].
    assert (E : (1 - t) * (1 - t) * (1 - t)
                == 1 - 3 * t + 3 * t * t - t * t * t) by ring.
    rewrite E in Ha, Hb. lra.
Qed.

(** C6.  Each of the three curves takes 0 to 0 and 1 to 1 (as identical
    rationals, not only up to [==]), maps the interval [0,1] into [0,1], and
    the two formulas of the quadratic and of the cubic curve have the same
    value at the seam [t = 0.5]. *)
Theorem tween_contract :
  (linear 0 = 0 /\ linear 1 = 1) /\
  (ease_in_out_quad 0 = 0 /\ ease_in_out_quad 1 = 1) /\
  (ease_in_out_cubic 0 = 0 /\ ease_in_out_cubic 1 = 1) /\
  (forall t : Q, 0 <= t <= 1 ->
     0 <= linear t <= 1 /\
     0 <= ease_in_out_quad t <= 1 /\
     0 <= ease_in_out_cubic t <= 1) /\
  quad_first_half 0.5 == quad_second_half 0.5 /\
  cubic_first_half 0.5 == cubic_second_half 0.5.
Proof.
  repeat split; try reflexivity;
    try (apply quad_range; assumption);
    try (apply cubic_range; assumption);
    unfold linear; tauto.
Qed.

Lemma tween_contract_witness :
  0 <= 0.25 <= 1 /\
  0 <= linear 0.25 <= 1 /\
  0 <= ease_in_out_quad 0.25 <= 1 /\
  0 <= ease_in_out_cubic 0.25 <= 1.
Proof.
  assert (H : 0 <= 0.25 <= 1) by (split; discriminate).
  split; [exact H|].
  exact (proj1 (proj2 (proj2 (proj2 tween_contract))) 0.25 H).
Defined.

(** ** The actuation mapping *)

(** C3, as the code has it.  The pulse is
    [min_pulse + (max_pulse - min_pulse) * v]; the command sent is four times
    the pulse with its fractional part dropped: the truncation comes before
    the scaling.  For [min_pulse = 1000], [max_pulse = 2000] and [v = 0.25]
    the pulse is 1250 and the command 5000. *)
Theorem mapper_truncates_then_scales (min_pulse max_pulse v : Q) :
  pulse (min_pulse, max_pulse) v == min_pulse + (max_pulse - min_pulse) * v /\
  truncates (pulse (min_pulse, max_pulse) v) (pulse_us (min_pulse, max_pulse) v) /\
  maestro_target (min_pulse, max_pulse) v
    = (4 * pulse_us (min_pulse, max_pulse) v)%Z /\
  pulse (1000, 2000) 0.25 == 1250 /\
  pulse_us (1000, 2000) 0.25 = 1250%Z /\
  maestro_target (1000, 2000) 0.25 = 5000%Z.
Proof.
  split; [reflexivity|].
  split; [apply py_int_truncates|].
  split; [unfold maestro_target; lia|].
  repeat split; reflexivity.
Qed.

(** C3, as stated, fails: with [min_pulse = 1000], [max_pulse = 2001] and
    [v = 0.5] the pulse is 1500.5; the code sends [1500 * 4 = 6000], while
    [pulse * 4 = 6002] truncated is 6002. *)
Lemma mapper_not_scale_then_truncate :
  pulse (1000, 2001) 0.5 == 1500.5 /\
  maestro_target (1000, 2001) 0.5 = 6000%Z /\
  Py.py_int (pulse (1000, 2001) 0.5 * 4) = 6002%Z /\
  ~ (forall min_pulse max_pulse v : Q,
       maestro_target (min_pulse, max_pulse) v
       = Py.py_int (pulse (min_pulse, max_pulse) v * 4)).
Proof.
  repeat split; try reflexivity.
  intros H. specialize (H 1000 2001 0.5). vm_compute in H. discriminate.
Qed.

(** ** Invariants of the trace *)

Lemma list_pair_ind {A : Type} (P : list A -> Prop) :
  P [] -> (forall a, P [a]) -> (forall a b l, P l -> P (a :: b :: l)) ->
  forall l, P l.
Proof.
  intros H0 H1 H2 l.
  enough (H : P l /\ forall a, P (a :: l)) by apply H.
  induction l as [|b l [IH1 IH2]]; split; auto.
Qed.

Lemma dict_set_Forall {V : Type} (R : Z * V -> Prop) k v d :
  R (k, v) -> Forall R d -> Forall R (dict_set k v d).
Proof.
  intros Hkv Hd. induction Hd as [|[k' v'] d' Hx Hd' IH]; cbn.
  - constructor; [assumption | constructor].
  - destruct (k =? k')%Z; constructor; assumption.
Qed.

Section TraceInvariant.

Variable servo_config : gmap Z (Q * Q).
Variable tween_func : Q -> Q.

(** [P] is the property of events, [I] what is known of the interpolator
    stored for a channel. *)
Variable P : event -> Prop.
Variable I : Z -> Interp.t -> Prop.

Hypothesis P_warning : forall c, P (Warning c).
Hypothesis P_keyframe : forall t, P (KeyframeAt t).
Hypothesis P_sleep : forall d, P (Sleep d).
Hypothesis P_final : forall c t, P (FinalTarget c t).
Hypothesis P_set : forall c f cfg x,
  I c f -> servo_config !! c = Some cfg ->
  P (SetTarget c (maestro_target cfg (Interp.evaluate f x))).

Let stored (cf : Z * Interp.t) : Prop := I (fst cf) (snd cf).

Lemma set_targets_Forall channels x :
  Forall stored channels ->
  Forall P (fst (set_targets servo_config channels x)).
Proof.
  induction 1 as [|[c f] channels Hcf _ IH]; cbn; [constructor|].
  destruct (servo_config !! c) as [cfg|] eqn:Hc; cbn; [|constructor].
  destruct (set_targets servo_config channels x) as [out r]. cbn in *.
  constructor; [|assumption]. apply P_set; assumption.
Qed.

Lemma final_targets_Forall total channels :
  Forall stored channels ->
  Forall P (fst (final_targets servo_config total channels)).
Proof.
  induction 1 as [|[c f] channels Hcf _ IH]; cbn; [constructor|].
  destruct (servo_config !! c) as [cfg|] eqn:Hc; cbn; [|constructor].
  destruct (final_targets servo_config total channels) as [out r]. cbn in *.
  constructor; [apply P_set; assumption|].
  constructor; [apply P_final | assumption].
Qed.

Lemma keyframe_message_Forall uniq elapsed idx :
  Forall P (fst (keyframe_message uniq elapsed idx)).
Proof.
  unfold keyframe_message.
  destruct (nth_error uniq idx) as [t|]; [|constructor].
  destruct (Py.leb t elapsed); cbn; repeat constructor. apply P_keyframe.
Qed.

Lemma tick_Forall channels total uniq elapsed idx :
  Forall stored channels ->
  Forall P (fst (tick servo_config tween_func channels total uniq elapsed idx)).
Proof.
  intros Hch. unfold tick.
  pose proof (keyframe_message_Forall uniq elapsed idx) as Hm.
  destruct (keyframe_message uniq elapsed idx) as [msg idx'].
  destruct (tweened_time tween_func total elapsed) as [tw|e]; [|exact Hm].
  pose proof (set_targets_Forall channels tw Hch) as Hs.
  destruct (set_targets servo_config channels tw) as [cmds [u|e]];
    cbn in *; apply Forall_app; split; assumption.
Qed.

Lemma nap_Forall a b : Forall P (nap a b).
Proof.
  unfold nap. destruct (Py.ltb 0 _); repeat constructor. apply P_sleep.
Qed.

Lemma playback_loop_Forall channels start total uniq clock :
  Forall stored channels ->
  forall idx,
  Forall P (fst (playback_loop servo_config tween_func channels start total
                   uniq clock idx)).
Proof.
  intros Hch. induction clock as [|a|a b clock IH] using list_pair_ind;
    intros idx; cbn.
  - constructor.
  - destruct (Py.ltb total (a - start)); [constructor|].
    pose proof (tick_Forall channels total uniq (a - start) idx Hch) as Ht.
    destruct (tick _ _ _ _ _ _ _) as [out [idx'|e]]; exact Ht.
  - destruct (Py.ltb total (a - start)); [constructor|].
    pose proof (tick_Forall channels total uniq (a - start) idx Hch) as Ht.
    destruct (tick _ _ _ _ _ _ _) as [out [idx'|e]]; [|exact Ht].
    specialize (IH idx').
    destruct (playback_loop _ _ _ _ _ _ clock idx') as [out' o]. cbn in *.
    repeat (apply Forall_app; split); auto using nap_Forall.
Qed.

(** What [build] returns, for items that all satisfy [I] once built. *)
Lemma build_stored items :
  (forall key track c f,
      In (key, track) items -> Py.int_of_str key = Py.Ok c ->
      is_Some (servo_config !! c) ->
      make_interpolator track = Py.Ok f -> I c f) ->
  forall interpolators all_times out interpolators' all_times',
  Forall stored interpolators ->
  build servo_config items interpolators all_times
    = (out, Py.Ok (interpolators', all_times')) ->
  Forall stored interpolators'.
Proof.
  induction items as [|[key track] items IH]; intros HI ints times out ints'
    times' Hst Hb; cbn in Hb.
  - congruence.
  - destruct (Py.int_of_str key) as [c|e] eqn:Hk; [|discriminate].
    assert (HI' : forall key track c f,
               In (key, track) items -> Py.int_of_str key = Py.Ok c ->
               is_Some (servo_config !! c) ->
               make_interpolator track = Py.Ok f -> I c f)
      by (intros; eapply HI; eauto; right; assumption).
    destruct (servo_config !! c) as [cfg|] eqn:Hc.
    + destruct (make_interpolator track) as [f|e] eqn:Hf; [|discriminate].
      eapply (IH HI' _ _ _ _ _ _ Hb). Unshelve.
      apply dict_set_Forall; [|assumption].
      eapply HI; eauto. left; reflexivity.
    + destruct (build servo_config items ints times) as [out0 r] eqn:Hb0.
      inversion Hb; subst. eapply (IH HI' _ _ _ _ _ Hst Hb0).
Qed.

Lemma build_Forall items interpolators all_times :
  Forall P (fst (build servo_config items interpolators all_times)).
Proof.
  revert interpolators all_times.
  induction items as [|[key track] items IH]; intros ints times; cbn.
  - constructor.
  - destruct (Py.int_of_str key) as [c|e]; [|constructor].
    destruct (servo_config !! c) as [cfg|].
    + destruct (make_interpolator track) as [f|e]; [apply IH | constructor].
    + specialize (IH ints times).
      destruct (build servo_config items ints times) as [out r]. cbn in *.
      constructor; [apply P_warning | assumption].
Qed.

Lemma animate_servos_Forall clock keyframes :
  (forall key track c f,
      In (key, track) keyframes -> Py.int_of_str key = Py.Ok c ->
      is_Some (servo_config !! c) ->
      make_interpolator track = Py.Ok f -> I c f) ->
  Forall P (fst (animate_servos clock keyframes servo_config tween_func)).
Proof.
  intros HI. unfold animate_servos.
  pose proof (build_Forall keyframes [] []) as Hw.
  pose proof (build_stored keyframes HI [] []) as Hst.
  destruct (build servo_config keyframes [] []) as [w [[ints times]|e]];
    [|exact Hw].
  specialize (Hst w ints times ltac:(constructor) eq_refl). cbn in Hw.
  destruct clock as [|start clock]; [exact Hw|].
  pose proof (playback_loop_Forall ints start (duration_of times)
                (sorted (unique times)) clock Hst 0%nat) as Hl.
  destruct (playback_loop _ _ _ _ _ _ clock 0%nat) as [played o]. cbn in Hl.
  pose proof (final_targets_Forall (duration_of times) ints Hst) as Hf.
  destruct o; cbn; try (apply Forall_app; split; assumption).
  destruct (final_targets _ _ ints) as [final [u|e]]; cbn in *;
    repeat (apply Forall_app; split); assumption.
Qed.

End TraceInvariant.

(** ** Construction of an interpolator *)

Lemma combine_fst_snd {A B : Type} (l : list (A * B)) :
  combine (map fst l) (map snd l) = l.
Proof.
  induction l as [|[a b] l IH]; cbn; [reflexivity | now rewrite IH].
Qed.

Lemma last_cons_default {A : Type} (l : list A) (a b : A) :
  List.last (b :: l) a = List.last l b.
Proof.
  destruct l as [|c l]; [reflexivity|].
  change (List.last (b :: c :: l) a) with (List.last (c :: l) a).
  revert c. induction l as [|d l IH]; intros c; [reflexivity|].
  change (List.last (d :: l) a = List.last (d :: l) b). apply IH.
Qed.

Lemma py_last_cons {A : Type} (a : A) (l : list A) :
  Py.last (a :: l) = Py.Ok (List.last l a).
Proof.
  revert a. induction l as [|b l IH]; intros a; [reflexivity|].
  change (Py.last (a :: b :: l)) with (Py.last (b :: l)). rewrite IH.
  now rewrite last_cons_default.
Qed.

Lemma last_map {A B : Type} (g : A -> B) (l : list A) (a : A) :
  List.last (map g l) (g a) = g (List.last l a).
Proof.
  induction l as [|b l IH]; [reflexivity|].
  cbn [map]. destruct l as [|c l]; [reflexivity|]. exact IH.
Qed.

(** A track with a first keyframe [p]: the interpolator holds the keyframes
    sorted by time and clamps to the positions of the first and of the last
    keyframe of the track as it was given. *)
Lemma make_interpolator_cons (p : Q * Q) (track : list (Q * Q)) :
  make_interpolator (p :: track)
  = Py.Ok (Interp.Build (Interp.sort (p :: track)) (snd p)
             (snd (List.last track p))).
Proof.
  unfold make_interpolator. cbn [map Py.first].
  change (?m ≫= ?k) with (Py.bind m k). cbn [Py.bind].
  change (?m ≫= ?k) with (Py.bind m k).
  rewrite py_last_cons. cbn [Py.bind].
  unfold Interp.interp1d. cbn [length].
  rewrite !length_map, Nat.eqb_refl. cbn [negb Nat.ltb Nat.leb fst snd].
  rewrite last_map.
  change (fst p :: map fst track) with (map fst (p :: track)).
  change (snd p :: map snd track) with (map snd (p :: track)).
  rewrite combine_fst_snd. reflexivity.
Qed.

Lemma make_interpolator_nil : make_interpolator [] = Py.Exc Py.IndexError.
Proof. reflexivity. Qed.

(** ** Values of an interpolator lie between the positions of its track *)

Section Between.

Variables lo hi : Q.

Let within (p : Q * Q) : Prop := lo <= snd p <= hi.

Lemma segment_between (xj yj x1 y1 x : Q) :
  lo <= yj <= hi -> lo <= y1 <= hi -> xj <= x -> x < x1 ->
  lo <= (y1 - yj) / (x1 - xj) * (x - xj) + yj <= hi.
Proof.
  intros Hj H1 Hx Hx1.
  set (s := (y1 - yj) / (x1 - xj)).
  assert (Hs : s * (x1 - xj) == y1 - yj) by (unfold s; field; lra).
  destruct (Qlt_le_dec s 0) as [Hneg|Hpos].
  - assert (s * (x1 - xj) <= s * (x - xj)) by nra.
    assert (s * (x - xj) <= 0) by nra. lra.
  - assert (s * (x - xj) <= s * (x1 - xj)) by nra.
    assert (0 <= s * (x - xj)) by nra. lra.
Qed.

Lemma walk_between rest :
  Forall within rest ->
  forall xj yj x, lo <= yj <= hi -> xj <= x ->
  lo <= Interp.walk xj yj rest x <= hi.
Proof.
  induction 1 as [|[x1 y1] rest H1 _ IH]; intros xj yj x Hj Hx; cbn.
  - exact Hj.
  - case_leb x1 x; [apply IH; assumption|].
    case_eqb xj x; [exact Hj|].
    apply segment_between; assumption.
Qed.

Lemma insert_Forall {R : Q * Q -> Prop} p l :
  R p -> Forall R l -> Forall R (Interp.insert p l).
Proof.
  intros Hp. induction 1 as [|q l Hq Hl IH]; cbn.
  - repeat constructor; assumption.
  - destruct (Py.leb (fst p) (fst q)); repeat constructor; assumption.
Qed.

Lemma insert_not_nil p l : Interp.insert p l <> [].
Proof.
  destruct l as [|q l]; cbn; [|destruct (Py.leb _ _)]; discriminate.
Qed.

Lemma sort_Forall {R : Q * Q -> Prop} l :
  Forall R l -> Forall R (Interp.sort l).
Proof.
  induction 1; cbn; [constructor | apply insert_Forall; assumption].
Qed.

Lemma last_Forall {A : Type} (R : A -> Prop) (l : list A) (a : A) :
  R a -> Forall R l -> R (List.last l a).
Proof.
  intros Ha. induction 1 as [|b l Hb Hl IH]; [assumption|].
  destruct l; [assumption | exact IH].
Qed.

Lemma evaluate_between track f x :
  make_interpolator track = Py.Ok f ->
  Forall within track ->
  lo <= Interp.evaluate f x <= hi.
Proof.
  destruct track as [|p track]; [discriminate|].
  rewrite make_interpolator_cons. intros Hf Hall.
  assert (Ef : f = Interp.Build (Interp.sort (p :: track)) (snd p)
                     (snd (List.last track p))) by congruence.
  rewrite Ef. clear Ef Hf.
  pose proof (sort_Forall _ Hall) as Hs.
  unfold Interp.evaluate.
  remember (Interp.sort (p :: track)) as pts eqn:E.
  cbn [Interp.points Interp.fill_below Interp.fill_above].
  symmetry in E. destruct pts as [|[x0 y0] rest].
  - exfalso. revert E. apply insert_not_nil.
  - inversion Hs as [|? ? H0 Hrest]; subst.
    case_ltb x x0; [exact (List.Forall_inv Hall)|].
    destruct (Py.ltb _ x).
    + apply (last_Forall within);
        [exact (List.Forall_inv Hall) | exact (List.Forall_inv_tail Hall)].
    + apply walk_between; assumption.
Qed.

End Between.

(** ** Commands are whole microseconds *)

(** C10.  Every command the servo controller receives, in the loop or in
    the final pass, is a multiple of 4: the pulse is cut to an integer
    before it is multiplied by 4. *)
Theorem commands_multiple_of_4 clock keyframes servo_config tween_func
    channel target :
  In (SetTarget channel target)
     (fst (animate_servos clock keyframes servo_config tween_func)) ->
  (4 | target)%Z.
Proof.
  intros Hin.
  pose (P := fun e => match e with
                      | SetTarget _ t => (4 | t)%Z
                      | _ => True
                      end).
  assert (H : Forall P (fst (animate_servos clock keyframes servo_config
                               tween_func))).
  { apply (animate_servos_Forall servo_config tween_func P (fun _ _ => True));
      cbn; auto.
    intros c f cfg x _ _. exists (pulse_us cfg (Interp.evaluate f x)).
    reflexivity. }
  rewrite List.Forall_forall in H. exact (H _ Hin).
Qed.

Lemma commands_multiple_of_4_witness :
  In (SetTarget 1 3600)
     (fst (animate_servos Demo.clock Demo.keyframes Demo.servo_config
             ease_in_out_quad)) /\
  (4 | 3600)%Z.
Proof.
  assert (H : In (SetTarget 1 3600)
                (fst (animate_servos Demo.clock Demo.keyframes
                        Demo.servo_config ease_in_out_quad))).
  { vm_compute. do 7 right. left. reflexivity. }
  split; [exact H|].
  exact (commands_multiple_of_4 _ _ _ _ _ _ H).
Defined.

(** ** Commands stay in the range of the channel *)

Lemma pulse_between (min_pulse max_pulse v : Q) :
  min_pulse < max_pulse -> 0 <= v <= 1 ->
  min_pulse <= pulse (min_pulse, max_pulse) v <= max_pulse.
Proof.
  intros Hlt [H0 H1]. unfold pulse. cbn [fst snd]. split; nra.
Qed.

Lemma maestro_target_between (min_pulse max_pulse v : Q) :
  min_pulse < max_pulse -> 0 <= v <= 1 ->
  (4 * Py.py_int min_pulse <= maestro_target (min_pulse, max_pulse) v
   <= 4 * Py.py_int max_pulse)%Z.
Proof.
  intros Hlt Hv. destruct (pulse_between _ _ _ Hlt Hv) as [Ha Hb].
  apply py_int_mono in Ha, Hb. unfold maestro_target, pulse_us. lia.
Qed.

(** C4, as the code has it.  For a channel with [min_pulse < max_pulse]
    whose keyframe positions all lie in [0,1], every command sent for it,
    in the loop or in the final pass, lies between four times [min_pulse]
    and four times [max_pulse], each with its fractional part dropped; when
    both bounds are whole numbers, that is the range of the channel scaled
    by 4. *)
Theorem commands_within_range clock keyframes servo_config tween_func
    channel min_pulse max_pulse target :
  servo_config !! channel = Some (min_pulse, max_pulse) ->
  min_pulse < max_pulse ->
  (forall key track,
      In (key, track) keyframes -> Py.int_of_str key = Py.Ok channel ->
      Forall (fun p => 0 <= snd p <= 1) track) ->
  In (SetTarget channel target)
     (fst (animate_servos clock keyframes servo_config tween_func)) ->
  (4 * Py.py_int min_pulse <= target <= 4 * Py.py_int max_pulse)%Z /\
  (forall a b : Z,
      min_pulse == inject_Z a -> max_pulse == inject_Z b ->
      4 * min_pulse <= inject_Z target <= 4 * max_pulse).
Proof.
  intros Hcfg Hlt Hpos Hin.
  pose (P := fun e =>
    match e with
    | SetTarget c t =>
        c = channel ->
        (4 * Py.py_int min_pulse <= t <= 4 * Py.py_int max_pulse)%Z
    | _ => True
    end).
  pose (I := fun (c : Z) (f : Interp.t) =>
    c = channel -> forall x, 0 <= Interp.evaluate f x <= 1).
  assert (H : Forall P (fst (animate_servos clock keyframes servo_config
                               tween_func))).
  { apply (animate_servos_Forall servo_config tween_func P I); cbn; auto.
    - intros c f cfg x Hc Hs ->. rewrite Hcfg in Hs. injection Hs as <-.
      apply maestro_target_between; [assumption | apply Hc; reflexivity].
    - intros key track c f Hk Hc _ Hf -> x.
      eapply evaluate_between; eauto. }
  rewrite List.Forall_forall in H. specialize (H _ Hin eq_refl).
  split; [exact H|].
  intros a b Ea Eb. rewrite Ea, Eb in H |- *.
  rewrite !py_int_inject in H.
  change 4 with (inject_Z 4). rewrite <- !inject_Z_mult, <- !Zle_Qle. exact H.
Qed.

Lemma commands_within_range_witness :
  In (SetTarget 1 3600)
     (fst (animate_servos Demo.clock Demo.keyframes Demo.servo_config
             ease_in_out_quad)) /\
  (4 * Py.py_int 500 <= 3600 <= 4 * Py.py_int 2500)%Z.
Proof.
  assert (H : In (SetTarget 1 3600)
                (fst (animate_servos Demo.clock Demo.keyframes
                        Demo.servo_config ease_in_out_quad))).
  { vm_compute. do 7 right. left. reflexivity. }
  split; [exact H|].
  refine (proj1 (commands_within_range Demo.clock Demo.keyframes
                   Demo.servo_config ease_in_out_quad 1 500 2500 3600
                   _ _ _ H)).
  - reflexivity.
  - reflexivity.
  - intros key track Hk Hc.
    destruct Hk as [E|[E|[E|[]]]]; inversion E; subst.
    + discriminate Hc.
    + discriminate Hc.
    + repeat constructor; discriminate.
Defined.

(** C4, as stated, fails for a bound that is not a whole number: with the
    range (1000.5, 2000) and the single keyframe (0, 0) the pulse is 1000.5
    and the command is [1000 * 4 = 4000], below [1000.5 * 4 = 4002]. *)
Lemma command_below_fractional_min :
  let servo_config : gmap Z (Q * Q) := {[ 0%Z := (1000.5, 2000) ]} in
  let keyframes := [("0"%string, [(0, 0)])] in
  servo_config !! 0%Z = Some (1000.5, 2000) /\
  1000.5 < 2000 /\
  Forall (fun p : Q * Q => 0 <= snd p <= 1) [(0, 0)] /\
  In (SetTarget 0 4000)
     (fst (animate_servos [0; 1] keyframes servo_config linear)) /\
  ~ (4 * 1000.5 <= inject_Z 4000 <= 4 * 2000).
Proof.
  cbv zeta. split; [reflexivity|]. split; [reflexivity|].
  split; [repeat constructor; discriminate|].
  split; [vm_compute; left; reflexivity|].
  intros [H _]. vm_compute in H. apply H. reflexivity.
Qed.

(** ** Evaluation of an interpolator on a sorted track *)

Lemma increasing_tail p track : increasing (p :: track) -> increasing track.
Proof. destruct track; cbn; tauto. Qed.

Lemma sort_increasing track : increasing track -> Interp.sort track = track.
Proof.
  induction track as [|p track IH]; intros H; [reflexivity|].
  cbn [Interp.sort fold_right]. fold (Interp.sort track).
  rewrite (IH (increasing_tail _ _ H)).
  destruct track as [|q track]; [reflexivity|].
  cbn. destruct H as [Hpq _].
  case_leb (fst p) (fst q); [reflexivity | lra].
Qed.

(** All times after the head of an increasing track are later. *)
Lemma increasing_head_lt p track :
  increasing (p :: track) -> Forall (fun q => fst p < fst q) track.
Proof.
  revert p. induction track as [|q track IH]; intros p H; constructor.
  - apply H.
  - destruct H as [Hpq H]. specialize (IH q H).
    eapply List.Forall_impl; [|exact IH]. cbn. intros r Hr. lra.
Qed.

Lemma increasing_last_le p track :
  increasing (p :: track) -> fst p <= fst (List.last track p).
Proof.
  intros H. apply increasing_head_lt in H.
  apply (last_Forall (fun q => fst p <= fst q)); [lra|].
  eapply List.Forall_impl; [|exact H]. cbn. intros; lra.
Qed.

(** At or after the last time, the walk ends on the last position. *)
Lemma walk_after_last xj yj rest x :
  increasing ((xj, yj) :: rest) ->
  fst (List.last rest (xj, yj)) <= x ->
  Interp.walk xj yj rest x = snd (List.last rest (xj, yj)).
Proof.
  revert xj yj. induction rest as [|[x1 y1] rest IH]; intros xj yj Hinc Hx;
    [reflexivity|].
  rewrite last_cons_default in Hx |- *.
  pose proof (increasing_last_le _ _ (increasing_tail _ _ Hinc)) as Hl.
  cbn [Interp.walk]. cbn [fst] in Hl.
  case_leb x1 x; [|lra].
  apply IH; [exact (increasing_tail _ _ Hinc) | assumption].
Qed.

(** Strictly inside the track, the walk stops on the pair that brackets
    the query and interpolates between its two keyframes. *)
Lemma walk_bracket xj yj rest x :
  increasing ((xj, yj) :: rest) ->
  xj <= x -> x < fst (List.last rest (xj, yj)) ->
  exists pre p q post,
    (xj, yj) :: rest = pre ++ p :: q :: post /\
    fst p <= x < fst q /\
    Interp.walk xj yj rest x
    == snd p + (x - fst p) / (fst q - fst p) * (snd q - snd p).
Proof.
  revert xj yj. induction rest as [|[x1 y1] rest IH]; intros xj yj Hinc Hlo Hhi.
  - cbn in Hhi. lra.
  - rewrite last_cons_default in Hhi. cbn [Interp.walk].
    case_leb x1 x.
    + destruct (IH x1 y1 (increasing_tail _ _ Hinc) Hle Hhi)
        as (pre & p & q & post & E & Hb & Hv).
      exists ((xj, yj) :: pre), p, q, post. rewrite E. auto.
    + exists [], (xj, yj), (x1, y1), rest. cbn [fst snd app].
      split; [reflexivity|]. split; [split; assumption|].
      case_eqb xj x.
      * rewrite <- Heq. field. lra.
      * field. lra.
Qed.

(** C2.  For a track whose times increase strictly, evaluation at [t] gives
    the position of the first keyframe when [t] is at or before the first
    time, the position of the last keyframe when [t] is at or after the last
    time, and otherwise the linear interpolation, by the fraction of time
    elapsed, between the two keyframes that bracket [t].  For the track
    [(0,0.2),(1,0.8)] the values at -5, 10 and 0.5 are 0.2, 0.8 and 0.5. *)
Theorem evaluate_sorted_track (p0 : Q * Q) (track : list (Q * Q))
    (f : Interp.t) (t : Q) :
  increasing (p0 :: track) ->
  make_interpolator (p0 :: track) = Py.Ok f ->
  (t <= fst p0 -> Interp.evaluate f t = snd p0) /\
  (fst (List.last track p0) <= t ->
   Interp.evaluate f t = snd (List.last track p0)) /\
  (fst p0 < t < fst (List.last track p0) ->
   exists pre p q post,
     p0 :: track = pre ++ p :: q :: post /\
     fst p <= t < fst q /\
     Interp.evaluate f t
     == snd p + (t - fst p) / (fst q - fst p) * (snd q - snd p)) /\
  (forall g, make_interpolator [(0, 0.2); (1, 0.8)] = Py.Ok g ->
     Interp.evaluate g (-5) == 0.2 /\
     Interp.evaluate g 10 == 0.8 /\
     Interp.evaluate g 0.5 == 0.5).
Proof.
  intros Hinc Hf. rewrite make_interpolator_cons in Hf.
  assert (Ef : f = Interp.Build (p0 :: track) (snd p0)
                     (snd (List.last track p0))).
  { rewrite <- (sort_increasing _ Hinc) at 1. congruence. }
  rewrite Ef. clear Ef Hf. destruct p0 as [x0 y0].
  pose proof (increasing_last_le _ _ Hinc) as Hl. cbn [fst snd] in *.
  unfold Interp.evaluate, Interp.last_time.
  cbn [Interp.points Interp.fill_below Interp.fill_above].
  rewrite last_cons_default.
  repeat split.
  - intros Ht. case_ltb t x0; [reflexivity|].
    case_ltb (fst (List.last track (x0, y0))) t; [lra|].
    destruct track as [|[x1 y1] track]; [reflexivity|].
    cbn [Interp.walk]. destruct Hinc as [H01 _]. cbn [fst] in H01.
    case_leb x1 t; [lra|]. case_eqb x0 t; [reflexivity|].
    exfalso. apply Heq. lra.
  - intros Ht. case_ltb t x0; [lra|].
    case_ltb (fst (List.last track (x0, y0))) t; [reflexivity|].
    apply walk_after_last; assumption.
  - intros [Ha Hb]. case_ltb t x0; [lra|].
    case_ltb (fst (List.last track (x0, y0))) t; [lra|].
    apply walk_bracket; assumption.
  - injection H as <-. reflexivity.
  - injection H as <-. reflexivity.
  - injection H as <-. reflexivity.
Qed.

Lemma evaluate_sorted_track_witness :
  exists f,
    make_interpolator [(0, 0.2); (1, 0.8)] = Py.Ok f /\
    Interp.evaluate f (-5) = 0.2.
Proof.
  eexists. split; [reflexivity|].
  refine (proj1 (evaluate_sorted_track (0, 0.2) [(1, 0.8)] _ (-5) _ _) _).
  - split; [reflexivity | exact Logic.I].
  - reflexivity.
  - discriminate.
Defined.

(** ** What a tick samples *)

Lemma commands_app (a b : list event) :
  commands (a ++ b) = commands a ++ commands b.
Proof. unfold commands. apply flat_map_app. Qed.

Section Configured.

Variable servo_config : gmap Z (Q * Q).

Let configured (cf : Z * Interp.t) : Prop :=
  is_Some (servo_config !! fst cf).

(** The interpolators that [build] stores are those of configured
    channels. *)
Lemma build_configured items interpolators all_times out interpolators'
    all_times' :
  Forall configured interpolators ->
  build servo_config items interpolators all_times
    = (out, Py.Ok (interpolators', all_times')) ->
  Forall configured interpolators'.
Proof.
  intros Hc Hb.
  eapply (build_stored servo_config (fun c _ => is_Some (servo_config !! c)));
    [|exact Hc|exact Hb].
  auto.
Qed.

(** For configured channels the commands of a tick are sent without
    error, one per channel, in the order of the dict. *)
Lemma set_targets_configured channels x :
  Forall configured channels ->
  set_targets servo_config channels x
  = (map (fun cf => SetTarget (fst cf)
                      (maestro_target (config_of servo_config (fst cf))
                         (Interp.evaluate (snd cf) x))) channels,
     Py.Ok tt).
Proof.
  induction 1 as [|[c f] channels [cfg Hc] _ IH]; [reflexivity|].
  cbn in Hc. cbn [set_targets map fst snd]. unfold config_of at 1.
  rewrite Hc, IH. reflexivity.
Qed.

Lemma final_targets_configured total channels :
  Forall configured channels ->
  final_targets servo_config total channels
  = (flat_map (fun cf =>
                 let target :=
                   maestro_target (config_of servo_config (fst cf))
                     (Interp.evaluate (snd cf) total) in
                 [SetTarget (fst cf) target; FinalTarget (fst cf) target])
       channels,
     Py.Ok tt).
Proof.
  induction 1 as [|[c f] channels [cfg Hc] _ IH]; [reflexivity|].
  cbn in Hc. cbn [final_targets flat_map fst snd app]. unfold config_of at 1 2.
  rewrite Hc, IH. reflexivity.
Qed.

Lemma commands_set_targets channels x :
  commands (map (fun cf => SetTarget (fst cf)
                      (maestro_target (config_of servo_config (fst cf))
                         (Interp.evaluate (snd cf) x))) channels)
  = mapped servo_config
      (map (fun cf => (fst cf, Interp.evaluate (snd cf) x)) channels).
Proof.
  unfold mapped. induction channels as [|[c f] channels IH];
    [reflexivity|]. cbn. f_equal. exact IH.
Qed.

Lemma commands_final_targets total channels :
  commands (flat_map (fun cf =>
                 let target :=
                   maestro_target (config_of servo_config (fst cf))
                     (Interp.evaluate (snd cf) total) in
                 [SetTarget (fst cf) target; FinalTarget (fst cf) target])
       channels)
  = mapped servo_config
      (map (fun cf => (fst cf, Interp.evaluate (snd cf) total)) channels).
Proof.
  unfold mapped. induction channels as [|[c f] channels IH];
    [reflexivity|]. cbn. f_equal. exact IH.
Qed.

Lemma commands_keyframe_message uniq elapsed idx :
  commands (fst (keyframe_message uniq elapsed idx)) = [].
Proof.
  unfold keyframe_message. destruct (nth_error uniq idx); [|reflexivity].
  destruct (Py.leb _ _); reflexivity.
Qed.

Lemma commands_nap a b : commands (nap a b) = [].
Proof. unfold nap. destruct (Py.ltb _ _); reflexivity. Qed.

End Configured.

Lemma progress_positive total elapsed :
  0 < total -> progress total elapsed = Py.Ok (elapsed / total).
Proof.
  intros H. unfold progress, Py.py_div.
  case_ltb 0 total; [|lra]. case_eqb total 0; [lra | reflexivity].
Qed.

Lemma progress_not_positive total elapsed :
  total <= 0 -> progress total elapsed = Py.Ok 0.
Proof.
  intros H. unfold progress. case_ltb 0 total; [lra | reflexivity].
Qed.

(** The loop's progress and tweened time never raise and are those of the
    specification's sampling operation. *)
Lemma progress_engine total elapsed :
  progress total elapsed = Py.Ok (Engine.progress total elapsed).
Proof.
  unfold Engine.progress. case_ltb 0 total.
  - now rewrite progress_positive.
  - now rewrite progress_not_positive.
Qed.

Lemma tweened_time_engine tween total elapsed :
  tweened_time tween total elapsed
  = Py.Ok (Engine.tweened_time tween total elapsed).
Proof.
  unfold tweened_time. rewrite progress_engine. reflexivity.
Qed.

(** The commands of one tick, for configured channels. *)
Lemma tick_commands servo_config tween channels total uniq elapsed idx :
  Forall (fun cf => is_Some (servo_config !! fst cf)) channels ->
  exists out idx',
    tick servo_config tween channels total uniq elapsed idx
      = (out, Py.Ok idx') /\
    commands out
    = mapped servo_config (Engine.sample tween total channels elapsed).
Proof.
  intros Hc. unfold tick.
  pose proof (commands_keyframe_message uniq elapsed idx) as Hm.
  destruct (keyframe_message uniq elapsed idx) as [msg idx'].
  rewrite tweened_time_engine, (set_targets_configured _ _ _ Hc).
  eexists _, _. split; [reflexivity|].
  change (commands msg = []) in Hm.
  rewrite commands_app, commands_set_targets, Hm. reflexivity.
Qed.

(** An iteration that does not leave the loop starts with the commands of
    its tick. *)
Lemma playback_loop_first_tick servo_config tween channels start total uniq
    now clock idx :
  Forall (fun cf => is_Some (servo_config !! fst cf)) channels ->
  now - start <= total ->
  exists out rest o,
    playback_loop servo_config tween channels start total uniq (now :: clock)
      idx = (out ++ rest, o) /\
    commands out
    = mapped servo_config (Engine.sample tween total channels (now - start)).
Proof.
  intros Hc Hle. cbn [playback_loop].
  case_ltb total (now - start); [lra|].
  destruct (tick_commands servo_config tween channels total uniq
              (now - start) idx Hc) as (out & idx' & -> & Hout).
  destruct clock as [|now' clock].
  - exists out, [], ClockExhausted. rewrite app_nil_r. auto.
  - destruct (playback_loop _ _ _ _ _ _ clock idx') as [out' o].
    exists out, (nap now now' ++ out'), o. auto.
Qed.

(** C1.  While the duration is positive, a tick at [elapsed_time] computes
    the progress [elapsed_time / total_duration] and the tweened time
    [tween(progress) * total_duration] without error, and the command of
    each channel is the mapping of its interpolator's value at the tweened
    time; an iteration of the loop that does not leave it sends exactly
    these commands.  For the track [(0,0),(2,1)] of channel 0 with the
    linear tween the duration is 2, and at elapsed time 1 the progress is
    0.5, the tweened time 1 and the normalized value 0.5. *)
Theorem tick_sampling_formula servo_config tween_func interpolators
    start_time total_duration uniq now clock idx :
  0 < total_duration ->
  Forall (fun cf => is_Some (servo_config !! fst cf)) interpolators ->
  now - start_time <= total_duration ->
  let elapsed_time := now - start_time in
  let at_time := tween_func (elapsed_time / total_duration) * total_duration in
  progress total_duration elapsed_time
    = Py.Ok (elapsed_time / total_duration) /\
  tweened_time tween_func total_duration elapsed_time = Py.Ok at_time /\
  (exists out rest o,
     playback_loop servo_config tween_func interpolators start_time
       total_duration uniq (now :: clock) idx = (out ++ rest, o) /\
     commands out
     = mapped servo_config
         (map (fun cf => (fst cf, Interp.evaluate (snd cf) at_time))
            interpolators)) /\
  (exists f p tw,
     build {[ 0%Z := (1000, 2000) ]} [("0"%string, [(0, 0); (2, 1)])] [] []
       = ([], Py.Ok ([(0%Z, f)], [0; 2])) /\
     duration_of [0; 2] = 2 /\
     progress 2 1 = Py.Ok p /\ p == 0.5 /\
     tweened_time linear 2 1 = Py.Ok tw /\ tw == 1 /\
     Interp.evaluate f tw == 0.5).
Proof.
  intros Hpos Hc Hle elapsed_time at_time.
  assert (Hp : progress total_duration elapsed_time
               = Py.Ok (elapsed_time / total_duration))
    by now apply progress_positive.
  assert (Ht : tweened_time tween_func total_duration elapsed_time
               = Py.Ok at_time)
    by (unfold tweened_time; rewrite Hp; reflexivity).
  split; [exact Hp|]. split; [exact Ht|]. split.
  - destruct (playback_loop_first_tick servo_config tween_func interpolators
                start_time total_duration uniq now clock idx Hc Hle)
      as (out & rest & o & E & Hout).
    exists out, rest, o. split; [exact E|]. rewrite Hout.
    unfold Engine.sample, Engine.tweened_time, Engine.progress.
    case_ltb 0 total_duration; [reflexivity | lra].
  - eexists _, _, _. repeat split; reflexivity.
Qed.

Lemma tick_sampling_formula_witness :
  progress 2 (101 - 100) = Py.Ok ((101 - 100) / 2).
Proof.
  refine (proj1 (tick_sampling_formula {[ 0%Z := (1000, 2000) ]} linear
                   [(0%Z, Interp.Build [(0, 0); (2, 1)] 0 1)]
                   100 2 [0; 2] 101 [] 0%nat _ _ _)).
  - reflexivity.
  - repeat constructor. exists (1000, 2000). reflexivity.
  - discriminate.
Defined.

(** ** Numbers that are equal give equal commands *)

Lemma walk_proper xj yj rest x x' :
  x == x' -> Interp.walk xj yj rest x == Interp.walk xj yj rest x'.
Proof.
  intros E. revert xj yj. induction rest as [|[x1 y1] rest IH]; intros xj yj;
    cbn; [reflexivity|].
  case_leb x1 x; case_leb x1 x'; try (exfalso; lra); [apply IH|].
  case_eqb xj x; case_eqb xj x'; try reflexivity.
  - exfalso. apply Heq0. lra.
  - exfalso. apply Heq. lra.
  - rewrite E. reflexivity.
Qed.

Lemma evaluate_proper f x x' :
  x == x' -> Interp.evaluate f x == Interp.evaluate f x'.
Proof.
  intros E. unfold Interp.evaluate.
  destruct (Interp.points f) as [|[x0 y0] rest]; [reflexivity|].
  case_ltb x x0; case_ltb x' x0; try (exfalso; lra); [reflexivity|].
  case_ltb (Interp.last_time ((x0, y0) :: rest)) x;
    case_ltb (Interp.last_time ((x0, y0) :: rest)) x'; try (exfalso; lra);
    [reflexivity | now apply walk_proper].
Qed.

Lemma maestro_target_proper cfg v v' :
  v == v' -> maestro_target cfg v = maestro_target cfg v'.
Proof.
  intros E. unfold maestro_target, pulse_us, pulse. now rewrite E.
Qed.

Lemma mapped_evaluate_proper servo_config channels x x' :
  x == x' ->
  mapped servo_config
    (map (fun cf => (fst cf, Interp.evaluate (snd cf) x)) channels)
  = mapped servo_config
      (map (fun cf => (fst cf, Interp.evaluate (snd cf) x')) channels).
Proof.
  intros E. unfold mapped. rewrite !map_map. apply map_ext. intros [c f].
  cbn [fst snd]. f_equal. apply maestro_target_proper.
  now apply evaluate_proper.
Qed.

Lemma mapped_keys servo_config values :
  map fst (mapped servo_config values) = map fst values.
Proof. unfold mapped. rewrite map_map. reflexivity. Qed.

(** ** The dict of interpolators and the list of times *)

Lemma dict_set_keys {V : Type} k (v : V) d k' :
  In k' (map fst (dict_set k v d)) <-> k' = k \/ In k' (map fst d).
Proof.
  induction d as [|[k0 v0] d IH]; cbn.
  - intuition auto.
  - destruct (Z.eqb_spec k k0) as [->|Hne]; cbn.
    + intuition congruence.
    + rewrite IH. intuition congruence.
Qed.

Lemma dict_set_NoDup {V : Type} k (v : V) d :
  List.NoDup (map fst d) -> List.NoDup (map fst (dict_set k v d)).
Proof.
  induction d as [|[k0 v0] d IH]; cbn; intros H.
  - repeat constructor. intros [].
  - inversion H as [|? ? Hnot Hd]; subst.
    destruct (Z.eqb_spec k k0) as [->|Hne]; cbn; constructor; auto.
    rewrite dict_set_keys. intros [E|Hin]; [congruence | contradiction].
Qed.

Lemma build_NoDup servo_config items :
  forall interpolators all_times out interpolators' all_times',
  List.NoDup (map fst interpolators) ->
  build servo_config items interpolators all_times
    = (out, Py.Ok (interpolators', all_times')) ->
  List.NoDup (map fst interpolators').
Proof.
  induction items as [|[key track] items IH]; intros ints times out ints'
    times' Hnd Hb; cbn in Hb.
  - congruence.
  - destruct (Py.int_of_str key) as [c|e]; [|discriminate].
    destruct (servo_config !! c).
    + destruct (make_interpolator track) as [f|e]; [|discriminate].
      eapply IH; [|exact Hb]. now apply dict_set_NoDup.
    + destruct (build servo_config items ints times) as [out0 r] eqn:Hb0.
      inversion Hb; subst. eapply IH; eauto.
Qed.

(** Every time in [all_times] is the time of a keyframe of some track. *)
Lemma build_times servo_config (R : Q -> Prop) items :
  (forall key track, In (key, track) items -> Forall R (map fst track)) ->
  forall interpolators all_times out interpolators' all_times',
  Forall R all_times ->
  build servo_config items interpolators all_times
    = (out, Py.Ok (interpolators', all_times')) ->
  Forall R all_times'.
Proof.
  induction items as [|[key track] items IH]; intros HR ints times out ints'
    times' Ht Hb; cbn in Hb.
  - congruence.
  - assert (HR' : forall key track,
               In (key, track) items -> Forall R (map fst track))
      by (intros; eapply HR; right; eauto).
    destruct (Py.int_of_str key) as [c|e]; [|discriminate].
    destruct (servo_config !! c).
    + destruct (make_interpolator track) as [f|e]; [|discriminate].
      eapply (IH HR'); [|exact Hb]. apply Forall_app. split; [assumption|].
      eapply HR. left; reflexivity.
    + destruct (build servo_config items ints times) as [out0 r] eqn:Hb0.
      inversion Hb; subst. eapply (IH HR'); eauto.
Qed.

Lemma py_max_ge x l : x <= Py.py_max x l.
Proof.
  unfold Py.py_max. revert x. induction l as [|y l IH]; intros x; cbn; [lra|].
  case_ltb x y.
  - specialize (IH y). lra.
  - apply IH.
Qed.

Lemma duration_of_nonneg all_times :
  Forall (fun t => 0 <= t) all_times -> 0 <= duration_of all_times.
Proof.
  destruct 1 as [|t ts Ht _]; cbn; [lra|].
  pose proof (py_max_ge t ts). lra.
Qed.

(** ** The final pass *)

Lemma engine_tweened_time_terminal (tween : Q -> Q) total :
  Proper (Qeq ==> Qeq) tween -> tween 1 == 1 -> 0 <= total ->
  Engine.tweened_time tween total total == total.
Proof.
  intros Hp H1 Hpos. unfold Engine.tweened_time, Engine.progress.
  case_ltb 0 total.
  - assert (E : total / total == 1) by (field; lra).
    rewrite E, H1. ring.
  - assert (E : total == 0) by lra. rewrite E. ring.
Qed.

(** What a run that returned is made of. *)
Lemma animate_servos_returned clock keyframes servo_config tween_func trace :
  animate_servos clock keyframes servo_config tween_func = (trace, Returned) ->
  exists warnings interpolators all_times start clock' played,
    build servo_config keyframes [] []
      = (warnings, Py.Ok (interpolators, all_times)) /\
    clock = start :: clock' /\
    playback_loop servo_config tween_func interpolators start
      (duration_of all_times) (sorted (unique all_times)) clock' 0
      = (played, Returned) /\
    trace = warnings ++ played
            ++ fst (final_targets servo_config (duration_of all_times)
                      interpolators).
Proof.
  unfold animate_servos.
  destruct (build servo_config keyframes [] []) as [w [[ints times]|e]];
    [|discriminate].
  destruct clock as [|start clock']; [discriminate|].
  destruct (playback_loop _ _ _ _ _ _ clock' 0%nat) as [played []] eqn:Hl;
    try discriminate.
  destruct (final_targets _ _ ints) as [final [u|e]] eqn:Hf; [|discriminate].
  intros [= <-]. exists w, ints, times, start, clock', played.
  rewrite Hf. repeat split; assumption.
Qed.

(** C9.  When the loop has ended, the final pass sends exactly one command
    per channel; for a tween with [tween(1) = 1] and keyframe times that are
    not negative, these commands are the mapping of the sample that the
    engine takes at [elapsed_time = total_duration]. *)
Theorem final_pass_is_terminal_sample clock keyframes servo_config tween_func
    trace :
  Proper (Qeq ==> Qeq) tween_func ->
  tween_func 1 == 1 ->
  (forall key track,
      In (key, track) keyframes -> Forall (fun t => 0 <= t) (map fst track)) ->
  animate_servos clock keyframes servo_config tween_func = (trace, Returned) ->
  exists warnings interpolators all_times played final,
    build servo_config keyframes [] []
      = (warnings, Py.Ok (interpolators, all_times)) /\
    trace = warnings ++ played ++ final /\
    final = fst (final_targets servo_config (duration_of all_times)
                   interpolators) /\
    commands final
    = mapped servo_config
        (Engine.sample tween_func (duration_of all_times) interpolators
           (duration_of all_times)) /\
    map fst (commands final) = map fst interpolators /\
    List.NoDup (map fst interpolators).
Proof.
  intros Hp H1 Hpos Hrun.
  destruct (animate_servos_returned _ _ _ _ _ Hrun)
    as (w & ints & times & start & clock' & played & Hb & _ & _ & ->).
  exists w, ints, times, played,
    (fst (final_targets servo_config (duration_of times) ints)).
  split; [exact Hb|].
  split; [reflexivity|]. split; [reflexivity|].
  assert (Hc : Forall (fun cf => is_Some (servo_config !! fst cf)) ints)
    by (eapply build_configured; [constructor | exact Hb]).
  assert (Hd : 0 <= duration_of times).
  { apply duration_of_nonneg.
    eapply build_times; [exact Hpos | constructor | exact Hb]. }
  assert (Hcmd : commands (fst (final_targets servo_config (duration_of times)
                                  ints))
                 = mapped servo_config
                     (Engine.sample tween_func (duration_of times) ints
                        (duration_of times))).
  { rewrite (final_targets_configured _ _ _ Hc). cbn [fst].
    rewrite commands_final_targets. unfold Engine.sample.
    apply mapped_evaluate_proper. symmetry.
    now apply engine_tweened_time_terminal. }
  split; [exact Hcmd|]. split.
  - rewrite Hcmd, mapped_keys. unfold Engine.sample. now rewrite map_map.
  - eapply (build_NoDup servo_config keyframes []); [|exact Hb].
    constructor.
Qed.

Lemma final_pass_is_terminal_sample_witness :
  exists trace,
    animate_servos Demo.clock Demo.keyframes Demo.servo_config
      ease_in_out_quad = (trace, Returned) /\
    exists final, commands final = [(0%Z, 8000%Z); (1%Z, 3600%Z)].
Proof.
  pose (trace := fst (animate_servos Demo.clock Demo.keyframes
                        Demo.servo_config ease_in_out_quad)).
  assert (Hrun : animate_servos Demo.clock Demo.keyframes Demo.servo_config
                   ease_in_out_quad = (trace, Returned))
    by (vm_compute; reflexivity).
  assert (Hp : Proper (Qeq ==> Qeq) ease_in_out_quad).
  { intros x y E. unfold ease_in_out_quad, quad_first_half, quad_second_half.
    case_ltb x 0.5; case_ltb y 0.5; try (exfalso; lra); now rewrite E. }
  assert (H1 : ease_in_out_quad 1 == 1) by reflexivity.
  assert (Hpos : forall key track,
             In (key, track) Demo.keyframes ->
             Forall (fun t => 0 <= t) (map fst track)).
  { intros key track Hk.
    destruct Hk as [E|[E|[E|[]]]]; inversion E; subst;
      repeat constructor; discriminate. }
  exists trace. split; [exact Hrun|].
  destruct (final_pass_is_terminal_sample Demo.clock Demo.keyframes
              Demo.servo_config ease_in_out_quad trace Hp H1 Hpos Hrun)
    as (w & ints & times & played & final & Hb & _ & _ & Hc & _).
  exists final. rewrite Hc. vm_compute in Hb. injection Hb as <- <- <-.
  vm_compute. reflexivity.
Defined.

(** ** A duration of zero *)

Section ZeroDuration.

Variable servo_config : gmap Z (Q * Q).
Variable tween_func : Q -> Q.
Variable interpolators : list (Z * Interp.t).
Variable total : Q.

Hypothesis configured :
  Forall (fun cf => is_Some (servo_config !! fst cf)) interpolators.
Hypothesis total_zero : total == 0.

Let at_zero : list (Z * Z) :=
  mapped servo_config
    (map (fun cf => (fst cf, Interp.evaluate (snd cf) 0)) interpolators).

Lemma engine_tweened_time_zero elapsed :
  Engine.tweened_time tween_func total elapsed == 0.
Proof.
  unfold Engine.tweened_time.
  generalize (tween_func (Engine.progress total elapsed)). intros a.
  rewrite total_zero. ring.
Qed.

Lemma sample_at_zero elapsed :
  mapped servo_config (Engine.sample tween_func total interpolators elapsed)
  = at_zero.
Proof.
  unfold Engine.sample. apply mapped_evaluate_proper.
  apply engine_tweened_time_zero.
Qed.

Lemma final_at_zero :
  exists final,
    final_targets servo_config total interpolators = (final, Py.Ok tt) /\
    commands final = at_zero.
Proof.
  rewrite (final_targets_configured _ _ _ configured).
  eexists. split; [reflexivity|].
  rewrite commands_final_targets. now apply mapped_evaluate_proper.
Qed.

(** The loop leaves at the first reading after the start; the iterations
    before it, whose readings are not after the start, each send the
    commands of time 0. *)
Lemma playback_loop_stalled start uniq stalls now rest :
  Forall (fun ab => fst ab <= start) stalls ->
  start < now ->
  forall idx,
  exists out,
    playback_loop servo_config tween_func interpolators start total uniq
      (flat_map (fun ab : Q * Q => [fst ab; snd ab]) stalls ++ now :: rest)
      idx = (out, Returned) /\
    commands out = concat (repeat at_zero (length stalls)) /\
    (stalls = [] -> out = []).
Proof.
  intros Hst Hnow. induction Hst as [|[a b] stalls Ha _ IH]; intros idx.
  - cbn [flat_map app playback_loop].
    case_ltb total (now - start); [|lra].
    exists []. repeat split; reflexivity.
  - cbn [flat_map app fst snd playback_loop]. cbn [fst] in Ha.
    case_ltb total (a - start); [lra|].
    destruct (tick_commands servo_config tween_func interpolators total
                uniq (a - start) idx configured)
      as (out & idx' & -> & Hout).
    destruct (IH idx') as (out' & -> & Hout' & _).
    eexists. split; [reflexivity|]. split; [|discriminate].
    rewrite !commands_app, commands_nap, Hout, Hout', sample_at_zero.
    reflexivity.
Qed.

End ZeroDuration.

(** A track of one keyframe: the interpolator is constant. *)
Lemma evaluate_single t0 p0 f x :
  make_interpolator [(t0, p0)] = Py.Ok f -> Interp.evaluate f x = p0.
Proof.
  rewrite make_interpolator_cons. intros [= <-].
  unfold Interp.evaluate. cbn.
  destruct (Py.ltb x t0); [reflexivity|].
  destruct (Py.ltb _ x); reflexivity.
Qed.

(** C5, as the code has it.  When the duration is 0, no division is made:
    the progress of every tick is 0 and its tweened time is 0.  The loop is
    left at the first clock reading that is after the start: at once, with
    no command from the loop, when the first reading already is; otherwise
    every iteration before it sends the commands of time 0.  The final pass
    then sends exactly one command per channel, at the interpolator's value
    at time 0 (for a track of a single keyframe, its position), and the
    function returns. *)
Theorem zero_duration_playback keyframes servo_config tween_func warnings
    interpolators all_times :
  build servo_config keyframes [] []
    = (warnings, Py.Ok (interpolators, all_times)) ->
  duration_of all_times == 0 ->
  let at_zero :=
    mapped servo_config
      (map (fun cf => (fst cf, Interp.evaluate (snd cf) 0)) interpolators) in
  (forall elapsed, progress (duration_of all_times) elapsed = Py.Ok 0) /\
  (forall elapsed, exists tw,
      tweened_time tween_func (duration_of all_times) elapsed = Py.Ok tw /\
      tw == 0) /\
  (forall start now rest, start < now ->
     exists final,
       animate_servos (start :: now :: rest) keyframes servo_config tween_func
         = (warnings ++ final, Returned) /\
       commands final = at_zero) /\
  (forall start stalls now rest,
     Forall (fun ab => fst ab <= start) stalls -> start < now ->
     exists trace,
       animate_servos
         (start :: flat_map (fun ab : Q * Q => [fst ab; snd ab]) stalls
                   ++ now :: rest)
         keyframes servo_config tween_func = (trace, Returned) /\
       commands trace = concat (repeat at_zero (length stalls)) ++ at_zero) /\
  map fst at_zero = map fst interpolators /\
  List.NoDup (map fst interpolators) /\
  (forall t0 p0 f x,
     make_interpolator [(t0, p0)] = Py.Ok f -> Interp.evaluate f x = p0).
Proof.
  intros Hb Hz at_zero.
  assert (Hc : Forall (fun cf => is_Some (servo_config !! fst cf))
                 interpolators)
    by (eapply build_configured; [constructor | exact Hb]).
  assert (Hw : commands warnings = []).
  { assert (H : Forall (fun e => commands [e] = [])
                  (fst (build servo_config keyframes [] [])))
      by (apply build_Forall; reflexivity).
    rewrite Hb in H. cbn [fst] in H. clear -H.
    induction H as [|e l He _ IH]; [reflexivity|].
    change (e :: l) with ([e] ++ l). now rewrite commands_app, He, IH. }
  assert (Hstall : forall start stalls now rest,
     Forall (fun ab => fst ab <= start) stalls -> start < now ->
     exists played final,
       animate_servos
         (start :: flat_map (fun ab : Q * Q => [fst ab; snd ab]) stalls
                   ++ now :: rest)
         keyframes servo_config tween_func
       = (warnings ++ played ++ final, Returned) /\
       commands played = concat (repeat at_zero (length stalls)) /\
       (stalls = [] -> played = []) /\
       commands final = at_zero).
  { intros start stalls now rest Hst Hnow. unfold animate_servos. rewrite Hb.
    destruct (playback_loop_stalled servo_config tween_func interpolators
                (duration_of all_times) Hc Hz start
                (sorted (unique all_times)) stalls now rest Hst Hnow 0%nat)
      as (played & Hl & Hp & Hnil).
    rewrite Hl.
    destruct (final_at_zero servo_config interpolators
                (duration_of all_times) Hc Hz) as (final & -> & Hf).
    exists played, final. repeat split; assumption. }
  split; [intros; apply progress_not_positive; lra|].
  split.
  { intros elapsed. rewrite tweened_time_engine. eexists. split; [reflexivity|].
    now apply engine_tweened_time_zero. }
  split.
  { intros start now rest Hnow.
    destruct (Hstall start [] now rest ltac:(constructor) Hnow)
      as (played & final & Hrun & _ & Hp & Hf).
    rewrite (Hp eq_refl) in Hrun. exists final. auto. }
  split.
  { intros start stalls now rest Hst Hnow.
    destruct (Hstall start stalls now rest Hst Hnow)
      as (played & final & Hrun & Hp & _ & Hf).
    eexists. split; [exact Hrun|].
    now rewrite !commands_app, Hw, Hp, Hf. }
  split; [unfold at_zero; rewrite mapped_keys; now rewrite map_map|].
  split; [eapply (build_NoDup servo_config keyframes []); [|exact Hb];
          constructor|].
  intros. eapply evaluate_single; eauto.
Qed.

Lemma zero_duration_playback_witness :
  exists final,
    animate_servos [5; 6] [("0"%string, [(0, 0.5)])]
      {[ 0%Z := (1000, 2000) ]} linear = ([] ++ final, Returned) /\
    commands final = [(0%Z, 6000%Z)].
Proof.
  pose (f := Interp.Build [(0, 0.5)] 0.5 0.5).
  assert (Hb : build {[ 0%Z := (1000, 2000) ]} [("0"%string, [(0, 0.5)])] [] []
               = ([], Py.Ok ([(0%Z, f)], [0]))) by reflexivity.
  assert (Hz : duration_of [0] == 0) by reflexivity.
  assert (Hnow : 5 < 6) by reflexivity.
  exact (proj1 (proj2 (proj2
           (zero_duration_playback _ _ linear _ _ _ Hb Hz))) 5 6 [] Hnow).
Defined.

(** C5, as stated, fails when the clock has not advanced between the start
    and the first iteration: with the readings 5, 5, 5.001, 6 and a single
    keyframe at time 0 the duration is 0, the first iteration does not leave
    the loop and sends a command, and the final pass sends the same one
    again: two commands for the channel. *)
Lemma zero_duration_stalled_clock :
  let servo_config : gmap Z (Q * Q) := {[ 0%Z := (1000, 2000) ]} in
  let keyframes := [("0"%string, [(0, 0.5)])] in
  (exists interpolators,
     build servo_config keyframes [] [] = ([], Py.Ok (interpolators, [0])) /\
     commands (fst (playback_loop servo_config linear interpolators 5
                      (duration_of [0]) (sorted (unique [0]))
                      [5; 5.001; 6] 0))
     = [(0%Z, 6000%Z)]) /\
  duration_of [0] = 0 /\
  snd (animate_servos [5; 5; 5.001; 6] keyframes servo_config linear)
    = Returned /\
  commands (fst (animate_servos [5; 5; 5.001; 6] keyframes servo_config
                   linear))
    = [(0%Z, 6000%Z); (0%Z, 6000%Z)].
Proof.
  cbv zeta. split; [eexists; split; [reflexivity | vm_compute; reflexivity]|].
  repeat split; vm_compute; reflexivity.
Qed.

(** ** Failure of the construction *)

Lemma build_no_commands servo_config items interpolators all_times :
  commands (fst (build servo_config items interpolators all_times)) = [].
Proof.
  assert (H : Forall (fun e => commands [e] = [])
                (fst (build servo_config items interpolators all_times)))
    by (apply build_Forall; reflexivity).
  induction H as [|e l He _ IH]; [reflexivity|].
  change (e :: l) with ([e] ++ l). now rewrite commands_app, He, IH.
Qed.

Lemma make_interpolator_succeeds track :
  track <> [] -> exists f, make_interpolator track = Py.Ok f.
Proof.
  destruct track as [|p track]; [congruence|]. intros _.
  rewrite make_interpolator_cons. eauto.
Qed.

Lemma build_empty_track_fails servo_config items key c :
  In (key, []) items -> Py.int_of_str key = Py.Ok c ->
  is_Some (servo_config !! c) ->
  forall interpolators all_times,
  exists out e,
    build servo_config items interpolators all_times = (out, Py.Exc e) /\
    (e = Py.IndexError \/ e = Py.ValueError).
Proof.
  intros Hin Hk [cfg Hc].
  induction items as [|[key' track] items IH]; intros ints times;
    [destruct Hin|]. cbn [build].
  destruct Hin as [E|Hin].
  - injection E as -> ->. rewrite Hk, Hc. cbn. eauto.
  - specialize (IH Hin).
    destruct (Py.int_of_str key') as [c'|e] eqn:Hk'.
    + destruct (servo_config !! c') as [cfg'|].
      * destruct track as [|p track]; [cbn; eauto|].
        rewrite make_interpolator_cons. apply IH.
      * destruct (IH ints times) as (out & e & -> & He). eauto.
    + exists [], e. split; [reflexivity|].
      revert Hk'. unfold Py.int_of_str.
      destruct (match Py.strip _ with [] => _ | _ => _ end);
        [discriminate | intros [= <-]; auto].
Qed.

Lemma build_succeeds servo_config items :
  (forall key track,
      In (key, track) items ->
      exists c, Py.int_of_str key = Py.Ok c /\
                (is_Some (servo_config !! c) -> track <> [])) ->
  forall interpolators all_times,
  exists out built,
    build servo_config items interpolators all_times = (out, Py.Ok built).
Proof.
  induction items as [|[key track] items IH]; intros H ints times;
    cbn [build]; [eauto|].
  destruct (H key track (or_introl eq_refl)) as (c & -> & Hne).
  assert (H' : forall key track,
             In (key, track) items ->
             exists c, Py.int_of_str key = Py.Ok c /\
                       (is_Some (servo_config !! c) -> track <> []))
    by (intros; apply H; right; assumption).
  destruct (servo_config !! c) as [cfg|].
  - destruct (make_interpolator_succeeds track) as [f ->]; [eauto|].
    apply (IH H').
  - destruct (IH H' ints times) as (out & built & ->). eauto.
Qed.

(** C7.  The construction of an interpolator raises an error for an empty
    track and succeeds for every track with at least one keyframe.  A run
    whose keyframes give an empty track to a configured channel raises
    before the clock is read and before any command is sent; a run in which
    every key is a number and every configured channel has a keyframe gets
    through the construction. *)
Theorem interpolator_construction servo_config :
  make_interpolator [] = Py.Exc Py.IndexError /\
  (forall track, track <> [] -> exists f, make_interpolator track = Py.Ok f) /\
  (forall clock keyframes tween_func key c,
     In (key, []) keyframes -> Py.int_of_str key = Py.Ok c ->
     is_Some (servo_config !! c) ->
     exists trace e,
       animate_servos clock keyframes servo_config tween_func
         = (trace, Raised e) /\
       animate_servos [] keyframes servo_config tween_func
         = (trace, Raised e) /\
       (e = Py.IndexError \/ e = Py.ValueError) /\
       commands trace = []) /\
  (forall keyframes,
     (forall key track,
         In (key, track) keyframes ->
         exists c, Py.int_of_str key = Py.Ok c /\
                   (is_Some (servo_config !! c) -> track <> [])) ->
     exists out built,
       build servo_config keyframes [] [] = (out, Py.Ok built)).
Proof.
  split; [reflexivity|]. split; [exact make_interpolator_succeeds|]. split.
  - intros clock keyframes tween_func key c Hin Hk Hc.
    destruct (build_empty_track_fails servo_config keyframes key c Hin Hk Hc
                [] []) as (out & e & Hb & He).
    exists out, e. unfold animate_servos. rewrite Hb.
    repeat split; try assumption.
    pose proof (build_no_commands servo_config keyframes [] []) as Hn.
    now rewrite Hb in Hn.
  - intros keyframes H. now apply build_succeeds.
Qed.

Lemma interpolator_construction_witness :
  exists trace e,
    animate_servos Demo.clock [("0"%string, [(0, 0)]); ("1"%string, [])]
      Demo.servo_config linear = (trace, Raised e).
Proof.
  destruct (proj1 (proj2 (proj2 (interpolator_construction Demo.servo_config)))
              Demo.clock [("0"%string, [(0, 0)]); ("1"%string, [])] linear
              "1"%string 1%Z)
    as (trace & e & H & _).
  - right. left. reflexivity.
  - reflexivity.
  - exists (500, 2500). reflexivity.
  - exists trace, e. exact H.
Defined.

(** ** Channels that are not configured *)

(** The first loop treats [items] as it treats the configured ones among
    them, up to the warnings it prints for the others. *)
Lemma build_configured_only servo_config items :
  forall interpolators all_times,
  exists warnings,
    Forall (fun e => exists c, e = Warning c /\ servo_config !! c = None)
      warnings /\
    build servo_config items interpolators all_times
    = (warnings,
       snd (build servo_config (configured_only servo_config items)
              interpolators all_times)) /\
    fst (build servo_config (configured_only servo_config items)
           interpolators all_times) = [].
Proof.
  induction items as [|[key track] items IH]; intros ints times.
  - exists []. repeat split. constructor.
  - unfold configured_only. cbn [List.filter].
    fold (configured_only servo_config items).
    destruct (is_configured_item servo_config (key, track)) eqn:E;
      unfold is_configured_item in E; cbn [fst] in E; cbn [build];
      destruct (Py.int_of_str key) as [c|e] eqn:Hk.
    + destruct (servo_config !! c) as [cfg|] eqn:Hc; [|discriminate].
      destruct (make_interpolator track) as [f|e].
      * apply IH.
      * exists []. repeat split. constructor.
    + exists []. repeat split. constructor.
    + destruct (servo_config !! c) as [cfg|] eqn:Hc; [discriminate|].
      destruct (IH ints times) as (w & Hw & Hb & Hn).
      exists (Warning c :: w). rewrite Hb. repeat split; [|assumption].
      constructor; [eauto | assumption].
    + discriminate.
Qed.

(** C8.  A channel that [keyframes] names but the configuration does not
    gets no interpolator and no command, and causes no failure: apart from
    the warnings printed for such channels, the run is the run on the
    keyframes of the configured channels alone.  With the configuration of
    channels 0 and 1 and keyframes for channels 0 and 9, channel 9 gets a
    warning and only channel 0 gets commands. *)
Theorem unconfigured_channel_skipped clock keyframes servo_config tween_func
    channel :
  servo_config !! channel = None ->
  (forall target,
      ~ In (SetTarget channel target)
          (fst (animate_servos clock keyframes servo_config tween_func))) /\
  (forall out interpolators all_times,
      build servo_config keyframes [] []
        = (out, Py.Ok (interpolators, all_times)) ->
      ~ In channel (map fst interpolators)) /\
  (exists warnings,
      Forall (fun e => exists c, e = Warning c /\ servo_config !! c = None)
        warnings /\
      animate_servos clock keyframes servo_config tween_func
      = (warnings
         ++ fst (animate_servos clock (configured_only servo_config keyframes)
                   servo_config tween_func),
         snd (animate_servos clock (configured_only servo_config keyframes)
                servo_config tween_func))) /\
  (let keyframes9 := [("9"%string, [(0, 0.5)]); ("0"%string, [(0, 0); (2, 1)])] in
   commands (fst (animate_servos [10; 11; 11.5; 13] keyframes9
                    Demo.servo_config linear))
     = [(0%Z, 6000%Z); (0%Z, 8000%Z)] /\
   snd (animate_servos [10; 11; 11.5; 13] keyframes9 Demo.servo_config linear)
     = Returned /\
   In (Warning 9)
      (fst (animate_servos [10; 11; 11.5; 13] keyframes9 Demo.servo_config
              linear))).
Proof.
  intros Hnone. split; [|split; [|split]].
  - intros target Hin.
    pose (P := fun e => match e with
                        | SetTarget c _ => is_Some (servo_config !! c)
                        | _ => True
                        end).
    assert (H : Forall P (fst (animate_servos clock keyframes servo_config
                                 tween_func))).
    { apply (animate_servos_Forall servo_config tween_func P
               (fun c _ => is_Some (servo_config !! c))); cbn; eauto. }
    rewrite List.Forall_forall in H. specialize (H _ Hin). cbn in H.
    rewrite Hnone in H. destruct H as [? H]. discriminate.
  - intros out ints times Hb Hin.
    assert (Hc : Forall (fun cf => is_Some (servo_config !! fst cf)) ints)
      by (eapply build_configured; [constructor | exact Hb]).
    rewrite List.Forall_forall in Hc. apply in_map_iff in Hin.
    destruct Hin as ([c f] & E & Hin). specialize (Hc _ Hin).
    cbn [fst] in E, Hc. subst c.
    rewrite Hnone in Hc. destruct Hc as [? Hc]. discriminate.
  - destruct (build_configured_only servo_config keyframes [] [])
      as (w & Hw & Hb & Hn).
    exists w. split; [exact Hw|]. unfold animate_servos. rewrite Hb.
    destruct (build servo_config (configured_only servo_config keyframes) [] [])
      as [w' [[ints times]|e]]; cbn [fst snd] in *; subst w'.
    + destruct clock as [|start clock']; [now rewrite app_nil_r|].
      destruct (playback_loop _ _ _ _ _ _ clock' 0%nat) as [played []];
        try reflexivity.
      destruct (final_targets _ _ ints) as [final [u|e]]; reflexivity.
    + now rewrite app_nil_r.
  - cbv zeta. repeat split; vm_compute; auto.
Qed.

Lemma unconfigured_channel_skipped_witness :
  Demo.servo_config !! 9%Z = None /\
  ~ In (SetTarget 9 6000)
      (fst (animate_servos Demo.clock Demo.keyframes Demo.servo_config
              ease_in_out_quad)).
Proof.
  assert (H : Demo.servo_config !! 9%Z = None) by reflexivity.
  split; [exact H|].
  exact (proj1 (unconfigured_channel_skipped Demo.clock Demo.keyframes
                  Demo.servo_config ease_in_out_quad 9 H) 6000%Z).
Defined.

(** * Further properties of the code *)

(** ** Shape of the tween curves *)

#[global] Instance ltb_proper : Proper (Qeq ==> Qeq ==> eq) Py.ltb.
Proof.
  intros x x' Ex y y' Ey. unfold Py.ltb. now rewrite Ex, Ey.
Qed.

#[global] Instance ease_in_out_quad_proper :
  Proper (Qeq ==> Qeq) ease_in_out_quad.
Proof.
  intros x y E. unfold ease_in_out_quad, quad_first_half, quad_second_half.
  rewrite E. destruct (Py.ltb y 0.5); now rewrite E.
Qed.

#[global] Instance ease_in_out_cubic_proper :
  Proper (Qeq ==> Qeq) ease_in_out_cubic.
Proof.
  intros x y E. unfold ease_in_out_cubic, cubic_first_half, cubic_second_half.
  rewrite E. destruct (Py.ltb y 0.5); now rewrite E.
Qed.

Lemma square_nonneg (a : Q) : 0 <= a * a.
Proof.
  destruct (Qlt_le_dec a 0) as [H|H].
  - assert (E : a * a == (- a) * (- a)) by ring.
    rewrite E. apply Qmult_le_0_compat; lra.
  - apply Qmult_le_0_compat; lra.
Qed.

Lemma cube_mono (x y : Q) : x <= y -> x * x * x <= y * y * y.
Proof.
  intros H.
  assert (E : y * y * y - x * x * x
              == (y - x) * ((x + y / 2) * (x + y / 2) + (3 # 4) * (y * y)))
    by field.
  pose proof (square_nonneg (x + y / 2)).
  pose proof (square_nonneg y).
  assert (0 <= (y - x) * ((x + y / 2) * (x + y / 2) + (3 # 4) * (y * y)))
    by (apply Qmult_le_0_compat; lra).
  lra.
Qed.

(** The quadratic curve never moves backward on [0,1]. *)
Theorem ease_in_out_quad_monotone (x y : Q) :
  0 <= x -> x <= y -> y <= 1 -> ease_in_out_quad x <= ease_in_out_quad y.
Proof.
  intros H0 Hxy H1.
  unfold ease_in_out_quad, quad_first_half, quad_second_half.
  case_ltb x 0.5; case_ltb y 0.5.
  - assert (0 <= (y - x) * (y + x)) by (apply Qmult_le_0_compat; lra). lra.
  - assert (0 <= (0.5 - x) * (0.5 + x)) by (apply Qmult_le_0_compat; lra).
    assert (0 <= (y - 0.5) * (1.5 - y)) by (apply Qmult_le_0_compat; lra).
    lra.
  - lra.
  - assert (0 <= (y - x) * (2 - x - y)) by (apply Qmult_le_0_compat; lra).
    lra.
Qed.

Lemma ease_in_out_quad_monotone_witness :
  ease_in_out_quad 0.25 <= ease_in_out_quad 0.75.
Proof.
  apply (ease_in_out_quad_monotone 0.25 0.75); discriminate.
Defined.

(** The cubic curve never moves backward, on the whole line. *)
Theorem ease_in_out_cubic_monotone (x y : Q) :
  x <= y -> ease_in_out_cubic x <= ease_in_out_cubic y.
Proof.
  intros Hxy.
  unfold ease_in_out_cubic, cubic_first_half, cubic_second_half.
  assert (Hs : forall t, 4 * t * t * t - 12 * t * t + 12 * t - 3
                         == 1 - 4 * ((1 - t) * (1 - t) * (1 - t)))
    by (intros; ring).
  case_ltb x 0.5; case_ltb y 0.5.
  - pose proof (cube_mono x y Hxy). lra.
  - rewrite Hs.
    pose proof (cube_mono x 0.5 ltac:(lra)).
    pose proof (cube_mono (1 - y) 0.5 ltac:(lra)).
    assert (E : 0.5 * 0.5 * 0.5 == 1 # 8) by reflexivity. lra.
  - lra.
  - rewrite !Hs. pose proof (cube_mono (1 - y) (1 - x) ltac:(lra)). lra.
Qed.

Lemma ease_in_out_cubic_monotone_witness :
  ease_in_out_cubic (-1) <= ease_in_out_cubic 2.
Proof.
  apply (ease_in_out_cubic_monotone (-1) 2). discriminate.
Defined.

(** Each curve is symmetric about the middle of the animation: what it has
    covered at [1 - t] is what it has left to cover at [t]. *)
Theorem tween_point_symmetry (t : Q) :
  linear (1 - t) == 1 - linear t /\
  ease_in_out_quad (1 - t) == 1 - ease_in_out_quad t /\
  ease_in_out_cubic (1 - t) == 1 - ease_in_out_cubic t.
Proof.
  unfold linear, ease_in_out_quad, ease_in_out_cubic, quad_first_half,
    quad_second_half, cubic_first_half, cubic_second_half.
  split; [reflexivity|].
  case_ltb (1 - t) 0.5; case_ltb t 0.5; try (exfalso; lra).
  - split; ring.
  - split; ring.
  - assert (E : t == 1 # 2) by lra. rewrite E. split; reflexivity.
Qed.

(** ** More on the interpolator *)

(** Whatever the order of the keyframes in the track, the interpolator
    never leaves the range of the positions of the track. *)
Theorem interpolator_within_positions track f (lo hi x : Q) :
  make_interpolator track = Py.Ok f ->
  Forall (fun p => lo <= snd p <= hi) track ->
  lo <= Interp.evaluate f x <= hi.
Proof.
  intros Hf Hall. exact (evaluate_between lo hi track f x Hf Hall).
Qed.

Lemma interpolator_within_positions_witness :
  exists f,
    make_interpolator [(1, 0.2); (0, 0.8)] = Py.Ok f /\
    0.2 <= Interp.evaluate f 0.5 <= 0.8.
Proof.
  eexists. split; [reflexivity|].
  apply (interpolator_within_positions [(1, 0.2); (0, 0.8)]).
  - reflexivity.
  - repeat constructor; discriminate.
Defined.

Lemma sort_head_last_Forall (R : Q * Q -> Prop) p track :
  Forall R (p :: track) ->
  exists q rest,
    Interp.sort (p :: track) = q :: rest /\
    R q /\ R (List.last rest q).
Proof.
  intros H. apply sort_Forall in H.
  destruct (Interp.sort (p :: track)) as [|q rest] eqn:E.
  - exfalso. revert E. apply insert_not_nil.
  - exists q, rest. split; [reflexivity|].
    split; [exact (List.Forall_inv H)|].
    apply last_Forall;
      [exact (List.Forall_inv H) | exact (List.Forall_inv_tail H)].
Qed.

(** Outside the times of the track the value is the position of the
    keyframe listed first (before every time) or last (after every time),
    also when the track is not sorted: the clamp values are taken from the
    track as given, not from its earliest and latest keyframes. *)
Theorem interpolator_clamps_to_listed_ends p0 track f (t : Q) :
  make_interpolator (p0 :: track) = Py.Ok f ->
  (Forall (fun p => t < fst p) (p0 :: track) ->
   Interp.evaluate f t = snd p0) /\
  (Forall (fun p => fst p < t) (p0 :: track) ->
   Interp.evaluate f t = snd (List.last track p0)).
Proof.
  rewrite make_interpolator_cons. intros Hf.
  assert (Ef : f = Interp.Build (Interp.sort (p0 :: track)) (snd p0)
                     (snd (List.last track p0))) by congruence.
  rewrite Ef. clear Ef Hf. unfold Interp.evaluate, Interp.last_time.
  split; intros H;
    destruct (sort_head_last_Forall _ _ _ H) as ([x0 y0] & rest & E & H0 & Hl);
    cbn [Interp.points Interp.fill_below Interp.fill_above];
    rewrite E, last_cons_default; cbn [fst] in *.
  - case_ltb t x0; [reflexivity | lra].
  - case_ltb t x0; [lra|].
    case_ltb (fst (List.last rest (x0, y0))) t; [reflexivity | lra].
Qed.

Lemma interpolator_clamps_to_listed_ends_witness :
  exists f,
    make_interpolator [(1, 0.2); (0, 0.8)] = Py.Ok f /\
    Interp.evaluate f (-1) = 0.2.
Proof.
  eexists. split; [reflexivity|].
  refine (proj1 (interpolator_clamps_to_listed_ends (1, 0.2) [(0, 0.8)] _ (-1)
                   _) _).
  - reflexivity.
  - repeat constructor.
Defined.

Lemma walk_at_keyframe xj yj rest p :
  increasing ((xj, yj) :: rest) ->
  In p ((xj, yj) :: rest) ->
  Interp.walk xj yj rest (fst p) = snd p.
Proof.
  revert xj yj. induction rest as [|[x1 y1] rest IH]; intros xj yj Hinc Hin.
  - destruct Hin as [<-|[]]. reflexivity.
  - cbn [Interp.walk]. destruct Hin as [<-|Hin].
    + cbn [fst snd]. destruct Hinc as [H01 _]. cbn [fst] in H01.
      case_leb x1 xj; [lra|]. case_eqb xj xj; [reflexivity|].
      exfalso. apply Heq. reflexivity.
    + pose proof (increasing_head_lt _ _ (increasing_tail _ _ Hinc)) as Hlt.
      assert (Hge : x1 <= fst p).
      { destruct Hin as [<-|Hin]; [cbn; lra|].
        rewrite List.Forall_forall in Hlt. specialize (Hlt _ Hin).
        cbn [fst] in Hlt. lra. }
      case_leb x1 (fst p); [|lra].
      apply IH; [exact (increasing_tail _ _ Hinc) | exact Hin].
Qed.

(** On a track whose times increase strictly the interpolator passes
    through every keyframe: at the time of a keyframe its value is the
    position of that keyframe. *)
Theorem interpolator_through_keyframes p0 track f p :
  increasing (p0 :: track) ->
  make_interpolator (p0 :: track) = Py.Ok f ->
  In p (p0 :: track) ->
  Interp.evaluate f (fst p) = snd p.
Proof.
  intros Hinc Hf Hin. rewrite make_interpolator_cons in Hf.
  assert (Ef : f = Interp.Build (p0 :: track) (snd p0)
                     (snd (List.last track p0))).
  { rewrite <- (sort_increasing _ Hinc) at 1. congruence. }
  rewrite Ef. clear Ef Hf. destruct p0 as [x0 y0].
  unfold Interp.evaluate, Interp.last_time.
  cbn [Interp.points Interp.fill_below Interp.fill_above].
  rewrite last_cons_default.
  assert (Hlo : x0 <= fst p).
  { destruct Hin as [<-|Hin]; [cbn; lra|].
    pose proof (increasing_head_lt _ _ Hinc) as Hlt.
    rewrite List.Forall_forall in Hlt. specialize (Hlt _ Hin).
    cbn [fst] in Hlt. lra. }
  assert (Hhi : fst p <= fst (List.last track (x0, y0))).
  { clear Hlo. revert x0 y0 Hinc Hin.
    induction track as [|q track IH]; intros x0 y0 Hinc Hin.
    - destruct Hin as [<-|[]]. cbn. lra.
    - rewrite last_cons_default. destruct Hin as [<-|Hin].
      + pose proof (increasing_last_le _ _ (increasing_tail _ _ Hinc)).
        destruct Hinc as [H01 _]. cbn [fst] in *. lra.
      + destruct q as [x1 y1].
        apply IH; [exact (increasing_tail _ _ Hinc) | exact Hin]. }
  case_ltb (fst p) x0; [lra|].
  case_ltb (fst (List.last track (x0, y0))) (fst p); [lra|].
  now apply walk_at_keyframe.
Qed.

Lemma interpolator_through_keyframes_witness :
  exists f,
    make_interpolator [(0, 0.2); (1, 0.8); (3, 0.1)] = Py.Ok f /\
    Interp.evaluate f 1 = 0.8.
Proof.
  eexists. split; [reflexivity|].
  apply (interpolator_through_keyframes (0, 0.2) [(1, 0.8); (3, 0.1)] _
           (1, 0.8)).
  - repeat split.
  - reflexivity.
  - right. left. reflexivity.
Defined.

(** ** More on the mapping *)

(** With [min_pulse <= max_pulse] a larger normalized value never gives a
    smaller command; the values 0 and 1 give the two ends of the range, cut
    to whole microseconds. *)
Theorem maestro_target_monotone (min_pulse max_pulse v v' : Q) :
  min_pulse <= max_pulse -> v <= v' ->
  (maestro_target (min_pulse, max_pulse) v
   <= maestro_target (min_pulse, max_pulse) v')%Z /\
  maestro_target (min_pulse, max_pulse) 0 = (4 * Py.py_int min_pulse)%Z /\
  maestro_target (min_pulse, max_pulse) 1 = (4 * Py.py_int max_pulse)%Z.
Proof.
  intros Hr Hv. unfold maestro_target, pulse_us, pulse. cbn [fst snd].
  split; [|split].
  - assert (H : min_pulse + (max_pulse - min_pulse) * v
                <= min_pulse + (max_pulse - min_pulse) * v') by nra.
    apply py_int_mono in H. lia.
  - assert (E : min_pulse + (max_pulse - min_pulse) * 0 == min_pulse) by ring.
    rewrite E. lia.
  - assert (E : min_pulse + (max_pulse - min_pulse) * 1 == max_pulse) by ring.
    rewrite E. lia.
Qed.

Lemma maestro_target_monotone_witness :
  Z.le (maestro_target (1000, 2000) 0.25) (maestro_target (1000, 2000) 0.75).
Proof.
  apply (maestro_target_monotone 1000 2000 0.25 0.75); discriminate.
Defined.

(** ** Errors and termination of a run *)

Lemma build_raises servo_config items interpolators all_times out e :
  build servo_config items interpolators all_times = (out, Py.Exc e) ->
  e = Py.ValueError \/ e = Py.IndexError.
Proof.
  revert interpolators all_times out.
  induction items as [|[key track] items IH]; intros ints times out Hb;
    cbn in Hb; [discriminate|].
  destruct (Py.int_of_str key) as [c|e'] eqn:Hk.
  - destruct (servo_config !! c).
    + destruct track as [|kf track].
      * cbn in Hb. injection Hb as _ <-. auto.
      * rewrite make_interpolator_cons in Hb. eauto.
    + destruct (build servo_config items ints times) as [out0 r] eqn:Hb0.
      injection Hb as _ ->. eauto.
  - injection Hb as _ <-. left. revert Hk. unfold Py.int_of_str.
    destruct (match Py.strip _ with [] => _ | _ => _ end);
      [discriminate | congruence].
Qed.

Lemma playback_loop_no_raise servo_config tween channels start total uniq
    clock :
  Forall (fun cf => is_Some (servo_config !! fst cf)) channels ->
  forall idx e,
  snd (playback_loop servo_config tween channels start total uniq clock idx)
  <> Raised e.
Proof.
  intros Hc. induction clock as [|a|a b clock IH] using list_pair_ind;
    intros idx e; cbn [playback_loop]; [discriminate| |].
  - destruct (Py.ltb total (a - start)); [discriminate|].
    destruct (tick_commands servo_config tween channels total uniq
                (a - start) idx Hc) as (out & idx' & -> & _). discriminate.
  - destruct (Py.ltb total (a - start)); [discriminate|].
    destruct (tick_commands servo_config tween channels total uniq
                (a - start) idx Hc) as (out & idx' & -> & _).
    specialize (IH idx' e).
    destruct (playback_loop _ _ _ _ _ _ clock idx') as [out' o]. exact IH.
Qed.

(** A run raises only while it builds the interpolators: the exception is
    the [ValueError] of a key that is no number or the [IndexError] of an
    empty track, no command has been sent and the clock has not been read.
    Once playback has started, nothing raises: the division is guarded and
    every channel played is configured. *)
Theorem run_raises_only_before_playback clock keyframes servo_config
    tween_func trace e :
  animate_servos clock keyframes servo_config tween_func = (trace, Raised e) ->
  (e = Py.ValueError \/ e = Py.IndexError) /\
  build servo_config keyframes [] [] = (trace, Py.Exc e) /\
  commands trace = [] /\
  (forall clock' tween',
      animate_servos clock' keyframes servo_config tween' = (trace, Raised e)).
Proof.
  unfold animate_servos.
  pose proof (build_no_commands servo_config keyframes [] []) as Hn.
  destruct (build servo_config keyframes [] []) as [w [[ints times]|e']]
    eqn:Hb.
  - assert (Hc : Forall (fun cf => is_Some (servo_config !! fst cf)) ints)
      by (eapply build_configured; [constructor | exact Hb]).
    destruct clock as [|start clock']; [discriminate|].
    pose proof (playback_loop_no_raise servo_config tween_func ints start
                  (duration_of times) (sorted (unique times)) clock' Hc 0%nat)
      as Hl.
    destruct (playback_loop _ _ _ _ _ _ clock' 0%nat) as [played o].
    rewrite (final_targets_configured _ _ _ Hc).
    destruct o; [discriminate | | discriminate].
    intros [= _ ->]. exfalso. exact (Hl e eq_refl).
  - intros [= <- <-]. repeat split; try assumption.
    eapply build_raises; eauto.
Qed.

Lemma run_raises_only_before_playback_witness :
  exists trace,
    animate_servos Demo.clock [("x"%string, [(0, 0)])] Demo.servo_config linear
      = (trace, Raised Py.ValueError) /\
    commands trace = [].
Proof.
  exists []. split; [reflexivity|].
  exact (proj1 (proj2 (proj2
           (run_raises_only_before_playback Demo.clock
              [("x"%string, [(0, 0)])] Demo.servo_config linear []
              Py.ValueError eq_refl)))).
Defined.

Section Run.

Variable servo_config : gmap Z (Q * Q).
Variable tween_func : Q -> Q.
Variable interpolators : list (Z * Interp.t).
Variables start total : Q.

Hypothesis configured :
  Forall (fun cf => is_Some (servo_config !! fst cf)) interpolators.

(** The loop runs the iterations whose first reading is within the
    duration and leaves at the first reading beyond it. *)
Lemma playback_loop_run uniq ticks now rest :
  Forall (fun ab => fst ab - start <= total) ticks ->
  total < now - start ->
  forall idx,
  exists out,
    playback_loop servo_config tween_func interpolators start total uniq
      (readings ticks ++ now :: rest) idx = (out, Returned) /\
    commands out
    = flat_map (fun ab =>
                  mapped servo_config
                    (Engine.sample tween_func total interpolators
                       (fst ab - start))) ticks.
Proof.
  intros Hst Hnow. induction Hst as [|[a b] ticks Ha _ IH]; intros idx.
  - cbn [readings flat_map app playback_loop].
    case_ltb total (now - start); [|lra].
    exists []. split; reflexivity.
  - unfold readings. cbn [flat_map app fst snd playback_loop].
    fold (readings ticks). cbn [fst] in Ha.
    case_ltb total (a - start); [lra|].
    destruct (tick_commands servo_config tween_func interpolators total
                uniq (a - start) idx configured)
      as (out & idx' & -> & Hout).
    destruct (IH idx') as (out' & -> & Hout').
    eexists. split; [reflexivity|].
    now rewrite !commands_app, commands_nap, Hout, Hout'.
Qed.

End Run.

(** The commands of a whole run.  When the clock shows, after the start, a
    sequence of iterations within the duration and then a reading beyond
    it, the function returns, and the commands it has sent are, in order:
    for each iteration the mapping of the sample at its elapsed time, every
    channel at the same tweened time, then the mapping of the interpolators'
    values at the duration. *)
Theorem run_commands keyframes servo_config tween_func warnings interpolators
    all_times start ticks now rest :
  build servo_config keyframes [] []
    = (warnings, Py.Ok (interpolators, all_times)) ->
  Forall (fun ab => fst ab - start <= duration_of all_times) ticks ->
  duration_of all_times < now - start ->
  exists trace,
    animate_servos (start :: readings ticks ++ now :: rest) keyframes
      servo_config tween_func = (trace, Returned) /\
    commands trace
    = flat_map (fun ab =>
                  mapped servo_config
                    (Engine.sample tween_func (duration_of all_times)
                       interpolators (fst ab - start))) ticks
      ++ mapped servo_config
           (map (fun cf => (fst cf,
                            Interp.evaluate (snd cf) (duration_of all_times)))
              interpolators).
Proof.
  intros Hb Hticks Hnow. unfold animate_servos. rewrite Hb.
  assert (Hc : Forall (fun cf => is_Some (servo_config !! fst cf))
                 interpolators)
    by (eapply build_configured; [constructor | exact Hb]).
  destruct (playback_loop_run servo_config tween_func interpolators start
              (duration_of all_times) Hc (sorted (unique all_times)) ticks
              now rest Hticks Hnow 0%nat) as (played & -> & Hp).
  rewrite (final_targets_configured _ _ _ Hc).
  eexists. split; [reflexivity|].
  rewrite !commands_app, Hp, commands_final_targets.
  pose proof (build_no_commands servo_config keyframes [] []) as Hn.
  rewrite Hb in Hn. cbn [fst] in Hn. now rewrite Hn.
Qed.

Lemma run_commands_witness :
  exists trace,
    animate_servos (100 :: readings [(100, 100.005); (101, 101.2)]
                        ++ 102.5 :: [])
      [("0"%string, [(0, 0); (2, 1)])] {[ 0%Z := (1000, 2000) ]} linear
      = (trace, Returned) /\
    commands trace = [(0%Z, 4000%Z); (0%Z, 6000%Z); (0%Z, 8000%Z)].
Proof.
  destruct (run_commands [("0"%string, [(0, 0); (2, 1)])]
              {[ 0%Z := (1000, 2000) ]} linear []
              [(0%Z, Interp.Build [(0, 0); (2, 1)] 0 1)] [0; 2] 100
              [(100, 100.005); (101, 101.2)] 102.5 [])
    as (trace & Hrun & Hc).
  - reflexivity.
  - repeat constructor; discriminate.
  - reflexivity.
  - exists trace. split; [exact Hrun|]. rewrite Hc. reflexivity.
Defined.

(** ** Sleeping *)

Lemma no_sleep_ok clock e : no_sleep e -> sleep_ok clock e.
Proof. destruct e; cbn; tauto. Qed.

Lemma sleep_ok_later clock a b e :
  sleep_ok clock e -> sleep_ok (a :: b :: clock) e.
Proof.
  destruct e; cbn; try tauto.
  intros (Hd & pre & x & y & post & -> & E). split; [exact Hd|].
  exists (a :: b :: pre), x, y, post. auto.
Qed.

Lemma playback_loop_sleeps servo_config tween channels start total uniq clock :
  forall idx,
  Forall (sleep_ok clock)
    (fst (playback_loop servo_config tween channels start total uniq clock
            idx)).
Proof.
  assert (Htick : forall elapsed idx,
             Forall no_sleep
               (fst (tick servo_config tween channels total uniq elapsed idx))).
  { intros. apply tick_Forall with (I := fun _ _ => True); cbn; auto.
    apply List.Forall_forall. auto. }
  induction clock as [|a|a b clock IH] using list_pair_ind; intros idx;
    cbn [playback_loop].
  - constructor.
  - destruct (Py.ltb total (a - start)); [constructor|].
    specialize (Htick (a - start) idx).
    destruct (tick _ _ _ _ _ _ _) as [out [idx'|e]]; cbn [fst] in *;
      (eapply List.Forall_impl; [|exact Htick]); intros; now apply no_sleep_ok.
  - destruct (Py.ltb total (a - start)); [constructor|].
    specialize (Htick (a - start) idx).
    destruct (tick _ _ _ _ _ _ _) as [out [idx'|e]]; cbn [fst] in *.
    + specialize (IH idx').
      destruct (playback_loop _ _ _ _ _ _ clock idx') as [out' o].
      cbn [fst] in *. repeat (apply Forall_app; split).
      * eapply List.Forall_impl; [|exact Htick]. intros; now apply no_sleep_ok.
      * unfold nap. case_ltb 0 (update_interval - (b - a)); constructor;
          [|constructor]. split; [assumption|].
        exists [], a, b, clock. auto.
      * eapply List.Forall_impl; [|exact IH]. intros e.
        apply sleep_ok_later.
    + eapply List.Forall_impl; [|exact Htick]. intros; now apply no_sleep_ok.
Qed.

(** [time.sleep] is only ever called with a positive time: what is left of
    the 10 ms period after the time that passed between the two clock
    readings of the iteration; with a clock that does not go backward it is
    at most the period. *)
Theorem sleeps_are_positive clock keyframes servo_config tween_func d :
  In (Sleep d) (fst (animate_servos clock keyframes servo_config tween_func)) ->
  0 < d /\
  exists pre a b post,
    clock = pre ++ a :: b :: post /\
    d = update_interval - (b - a) /\
    (a <= b -> d <= update_interval).
Proof.
  intros Hin.
  assert (H : Forall (sleep_ok clock)
                (fst (animate_servos clock keyframes servo_config tween_func))).
  { unfold animate_servos.
    assert (Hw : Forall no_sleep (fst (build servo_config keyframes [] [])))
      by (apply build_Forall; cbn; auto).
    destruct (build servo_config keyframes [] []) as [w [[ints times]|e]];
      cbn [fst] in *.
    2:{ eapply List.Forall_impl; [|exact Hw]. intros; now apply no_sleep_ok. }
    assert (Hw' : Forall (sleep_ok clock) w)
      by (eapply List.Forall_impl; [|exact Hw]; intros; now apply no_sleep_ok).
    destruct clock as [|start clock']; [exact Hw'|].
    pose proof (playback_loop_sleeps servo_config tween_func ints start
                  (duration_of times) (sorted (unique times)) clock' 0%nat)
      as Hl.
    assert (Hl' : Forall (sleep_ok (start :: clock'))
                    (fst (playback_loop servo_config tween_func ints start
                            (duration_of times) (sorted (unique times))
                            clock' 0%nat))).
    { eapply List.Forall_impl; [|exact Hl]. intros [] He; cbn in *; auto.
      destruct He as (Hd & pre & x & y & post & -> & E). split; [exact Hd|].
      exists (start :: pre), x, y, post. auto. }
    assert (Hf : Forall no_sleep
                   (fst (final_targets servo_config (duration_of times) ints))).
    { apply final_targets_Forall with (I := fun _ _ => True); cbn; auto.
      apply List.Forall_forall. auto. }
    destruct (playback_loop _ _ _ _ _ _ clock' 0%nat) as [played o].
    cbn [fst] in *.
    destruct o; cbn [fst]; try (apply Forall_app; split; assumption).
    destruct (final_targets _ _ ints) as [final [u|e]]; cbn [fst] in *;
      repeat (apply Forall_app; split); try assumption;
      (eapply List.Forall_impl; [|exact Hf]); intros; now apply no_sleep_ok. }
  rewrite List.Forall_forall in H. specialize (H _ Hin).
  destruct H as (Hd & pre & a & b & post & E & Ed).
  split; [exact Hd|]. exists pre, a, b, post. repeat split; try assumption.
  intros Hab. rewrite Ed. lra.
Qed.

Lemma sleeps_are_positive_witness :
  0 < update_interval - (100.005 - 100).
Proof.
  refine (proj1 (sleeps_are_positive Demo.clock Demo.keyframes
                   Demo.servo_config ease_in_out_quad
                   (update_interval - (100.005 - 100)) _)).
  vm_compute. do 4 right. left. reflexivity.
Defined.

(** ** The keyframe messages *)

Lemma filter_Forall {A : Type} (R : A -> Prop) g (l : list A) :
  Forall R l -> Forall R (List.filter g l).
Proof.
  induction 1 as [|x l Hx _ IH]; cbn; [constructor|].
  destruct (g x); [constructor|]; assumption.
Qed.

Lemma filter_distinct g l : distinct l -> distinct (List.filter g l).
Proof.
  induction l as [|x l IH]; cbn; [trivial|]. intros [Hx Hl].
  destruct (g x); cbn; auto using filter_Forall.
Qed.

Lemma unique_Forall (R : Q -> Prop) l : Forall R l -> Forall R (unique l).
Proof.
  induction 1 as [|x l Hx _ IH]; cbn; constructor; auto using filter_Forall.
Qed.

Lemma unique_distinct l : distinct (unique l).
Proof.
  induction l as [|x l IH]; cbn; [trivial|]. split.
  - apply List.Forall_forall. intros y Hy. apply filter_In in Hy.
    destruct Hy as [_ Hy]. apply negb_true_iff, eqb_neq in Hy. exact Hy.
  - now apply filter_distinct.
Qed.

Lemma insert_time_Forall (R : Q -> Prop) x l :
  R x -> Forall R l -> Forall R (insert_time x l).
Proof.
  intros Hx. induction 1 as [|y l Hy Hl IH]; cbn.
  - repeat constructor; assumption.
  - destruct (Py.leb x y); repeat constructor; assumption.
Qed.

Lemma sorted_Forall (R : Q -> Prop) l : Forall R l -> Forall R (sorted l).
Proof.
  induction 1; cbn; [constructor | apply insert_time_Forall; assumption].
Qed.

Lemma insert_time_distinct x l :
  Forall (fun y => ~ x == y) l -> distinct l -> distinct (insert_time x l).
Proof.
  induction l as [|y l IH]; cbn; intros Hx Hl; [auto|].
  destruct Hl as [Hy Hl]. destruct (Py.leb x y); cbn.
  - auto.
  - split.
    + apply insert_time_Forall; [|assumption].
      intros E. apply (List.Forall_inv Hx). now symmetry.
    + apply IH; [exact (List.Forall_inv_tail Hx) | assumption].
Qed.

Lemma sorted_distinct l : distinct l -> distinct (sorted l).
Proof.
  induction l as [|x l IH]; cbn; [trivial|]. intros [Hx Hl].
  apply insert_time_distinct; [now apply sorted_Forall | now apply IH].
Qed.

Lemma insert_time_nondecreasing x l :
  nondecreasing l -> nondecreasing (insert_time x l).
Proof.
  induction l as [|y l IH]; cbn; intros Hl; [auto|].
  destruct Hl as [Hy Hl]. case_leb x y; cbn.
  - repeat split; try assumption. constructor; [assumption|].
    eapply List.Forall_impl; [|exact Hy]. cbn. intros; lra.
  - split; [|now apply IH].
    apply insert_time_Forall; [lra | assumption].
Qed.

Lemma sorted_nondecreasing l : nondecreasing (sorted l).
Proof.
  induction l as [|x l IH]; cbn; [trivial|].
  now apply insert_time_nondecreasing.
Qed.

Lemma nondecreasing_distinct_ascending l :
  nondecreasing l -> distinct l -> ascending l.
Proof.
  induction l as [|x l IH]; cbn; [trivial|].
  intros [Hle Hl] [Hne Hd]. split; [|now apply IH].
  rewrite List.Forall_forall in *. intros y Hy.
  specialize (Hle y Hy). specialize (Hne y Hy). cbn in *.
  destruct (Qlt_le_dec x y) as [H|H]; [exact H|].
  exfalso. apply Hne. lra.
Qed.

Lemma sorted_unique_ascending l : ascending (sorted (unique l)).
Proof.
  apply nondecreasing_distinct_ascending;
    [apply sorted_nondecreasing | apply sorted_distinct, unique_distinct].
Qed.

Lemma keyframe_messages_app a b :
  keyframe_messages (a ++ b) = keyframe_messages a ++ keyframe_messages b.
Proof. unfold keyframe_messages. apply flat_map_app. Qed.

Lemma no_keyframe_messages l :
  Forall no_keyframe l -> keyframe_messages l = [].
Proof.
  induction 1 as [|e l He _ IH]; [reflexivity|].
  destruct e; cbn in *; try contradiction; exact IH.
Qed.

Lemma set_targets_no_keyframe servo_config channels x :
  keyframe_messages (fst (set_targets servo_config channels x)) = [].
Proof.
  apply no_keyframe_messages.
  apply set_targets_Forall with (I := fun _ _ => True); cbn; auto.
  apply List.Forall_forall. auto.
Qed.

Lemma skipn_nth_error {A : Type} (l : list A) n x :
  nth_error l n = Some x -> skipn n l = x :: skipn (S n) l.
Proof.
  revert l. induction n as [|n IH]; intros [|y l] H; try discriminate.
  - injection H as ->. reflexivity.
  - change (skipn n l = x :: skipn (S n) l). exact (IH l H).
Qed.

(** A tick announces nothing, or the next time of the list, which the
    elapsed time has reached. *)
Lemma tick_keyframe servo_config tween channels total uniq elapsed idx :
  let r := tick servo_config tween channels total uniq elapsed idx in
  (keyframe_messages (fst r) = [] /\
   forall idx', snd r = Py.Ok idx' -> idx' = idx) \/
  (exists t,
     nth_error uniq idx = Some t /\ t <= elapsed /\
     keyframe_messages (fst r) = [t] /\
     forall idx', snd r = Py.Ok idx' -> idx' = S idx).
Proof.
  unfold tick, keyframe_message.
  destruct (tweened_time tween total elapsed) as [tw|e] eqn:Ht.
  2:{ rewrite tweened_time_engine in Ht. discriminate. }
  pose proof (set_targets_no_keyframe servo_config channels tw) as Hs.
  destruct (nth_error uniq idx) as [t|] eqn:Hn.
  - case_leb t elapsed.
    + right. exists t.
      destruct (set_targets servo_config channels tw) as [cmds [u|e]];
        cbn [fst snd] in *; rewrite keyframe_messages_app, Hs;
        repeat split; try assumption; congruence.
    + left.
      destruct (set_targets servo_config channels tw) as [cmds [u|e]];
        cbn [fst snd] in *; rewrite keyframe_messages_app, Hs;
        repeat split; congruence.
  - left.
    destruct (set_targets servo_config channels tw) as [cmds [u|e]];
      cbn [fst snd] in *; rewrite keyframe_messages_app, Hs;
      repeat split; congruence.
Qed.

Lemma playback_loop_keyframes servo_config tween channels start total uniq
    clock :
  forall idx,
  exists k,
    keyframe_messages
      (fst (playback_loop servo_config tween channels start total uniq clock
              idx))
    = firstn k (skipn idx uniq).
Proof.
  induction clock as [|a|a b clock IH] using list_pair_ind; intros idx;
    cbn [playback_loop].
  - exists 0%nat. reflexivity.
  - destruct (Py.ltb total (a - start)); [exists 0%nat; reflexivity|].
    pose proof (tick_keyframe servo_config tween channels total uniq
                  (a - start) idx) as Ht. cbv zeta in Ht.
    destruct (tick _ _ _ _ _ _ _) as [out [idx'|e]]; cbn [fst snd] in *;
      destruct Ht as [[-> _]|(t & Hn & _ & -> & _)];
      try (exists 0%nat; reflexivity);
      exists 1%nat; rewrite (skipn_nth_error _ _ _ Hn); reflexivity.
  - destruct (Py.ltb total (a - start)); [exists 0%nat; reflexivity|].
    pose proof (tick_keyframe servo_config tween channels total uniq
                  (a - start) idx) as Ht. cbv zeta in Ht.
    destruct (tick _ _ _ _ _ _ _) as [out [idx'|e]]; cbn [fst snd] in *.
    + destruct (IH idx') as [k Hk].
      destruct (playback_loop _ _ _ _ _ _ clock idx') as [out' o].
      cbn [fst] in *.
      assert (Hnap : keyframe_messages (nap a b) = [])
        by (unfold nap; destruct (Py.ltb _ _); reflexivity).
      rewrite !keyframe_messages_app, Hnap, Hk.
      destruct Ht as [[-> Hi]|(t & Hn & _ & -> & Hi)];
        rewrite (Hi idx' eq_refl).
      * exists k. reflexivity.
      * exists (S k). rewrite (skipn_nth_error _ _ _ Hn). reflexivity.
    + destruct Ht as [[-> _]|(t & Hn & _ & -> & _)];
        [exists 0%nat; reflexivity|].
      exists 1%nat. rewrite (skipn_nth_error _ _ _ Hn). reflexivity.
Qed.

(** The keyframe times announced during a run are the first few of the
    distinct keyframe times of the configured channels in increasing order:
    each is announced at most once, none is skipped before a later one, and
    they are strictly increasing. *)
Theorem keyframe_messages_in_order clock keyframes servo_config tween_func
    warnings interpolators all_times :
  build servo_config keyframes [] []
    = (warnings, Py.Ok (interpolators, all_times)) ->
  ascending (sorted (unique all_times)) /\
  Forall (fun t => In t all_times) (sorted (unique all_times)) /\
  exists k,
    keyframe_messages
      (fst (animate_servos clock keyframes servo_config tween_func))
    = firstn k (sorted (unique all_times)).
Proof.
  intros Hb. split; [apply sorted_unique_ascending|]. split.
  { apply sorted_Forall, unique_Forall, List.Forall_forall. auto. }
  unfold animate_servos. rewrite Hb.
  assert (Hw : keyframe_messages warnings = []).
  { apply no_keyframe_messages.
    pose proof (build_Forall servo_config no_keyframe) as H.
    specialize (H ltac:(cbn; auto) keyframes [] []).
    now rewrite Hb in H. }
  destruct clock as [|start clock'];
    [exists 0%nat; cbn [fst]; now rewrite Hw|].
  destruct (playback_loop_keyframes servo_config tween_func interpolators
              start (duration_of all_times) (sorted (unique all_times))
              clock' 0%nat) as [k Hk].
  assert (Hf : keyframe_messages
                 (fst (final_targets servo_config (duration_of all_times)
                         interpolators)) = []).
  { apply no_keyframe_messages.
    apply final_targets_Forall with (I := fun _ _ => True); cbn; auto.
    apply List.Forall_forall. auto. }
  destruct (playback_loop _ _ _ _ _ _ clock' 0%nat) as [played o].
  cbn [fst skipn] in *. exists k.
  destruct o; cbn [fst]; rewrite ?keyframe_messages_app, ?Hw, ?Hk;
    try reflexivity.
  destruct (final_targets _ _ interpolators) as [final [u|e]];
    cbn [fst] in *; rewrite !keyframe_messages_app, Hw, Hk, Hf;
    now rewrite app_nil_r.
Qed.

Lemma keyframe_messages_in_order_witness :
  exists k,
    keyframe_messages
      (fst (animate_servos Demo.clock Demo.keyframes Demo.servo_config
              ease_in_out_quad))
    = firstn k (sorted (unique [0; 2; 0; 1])).
Proof.
  refine (proj2 (proj2 (keyframe_messages_in_order Demo.clock Demo.keyframes
                          Demo.servo_config ease_in_out_quad [Warning 9]
                          _ [0; 2; 0; 1] _))).
  vm_compute. reflexivity.
Defined.

(** ** The duration *)

Lemma py_max_upper x l : Forall (fun y => y <= Py.py_max x l) (x :: l).
Proof.
  unfold Py.py_max. revert x. induction l as [|y l IH]; intros x; cbn.
  - repeat constructor. lra.
  - case_ltb x y.
    + specialize (IH y). constructor; [|exact IH].
      pose proof (List.Forall_inv IH). cbn in *. lra.
    + specialize (IH x). inversion IH as [|? ? Hx Hl]; subst.
      constructor; [exact Hx|]. constructor; [lra | exact Hl].
Qed.

Lemma py_max_In x l : In (Py.py_max x l) (x :: l).
Proof.
  unfold Py.py_max. revert x. induction l as [|y l IH]; intros x; cbn.
  - auto.
  - destruct (Py.ltb x y).
    + right. apply IH.
    + destruct (IH x) as [E|Hin]; [left; exact E | right; right; exact Hin].
Qed.

Lemma build_all_times servo_config items :
  forall interpolators all_times out interpolators' all_times',
  build servo_config items interpolators all_times
    = (out, Py.Ok (interpolators', all_times')) ->
  all_times'
  = all_times
    ++ flat_map (fun item => map fst (snd item))
         (configured_only servo_config items).
Proof.
  induction items as [|[key track] items IH]; intros ints times out ints'
    times' Hb; cbn [build] in Hb.
  - injection Hb as _ _ <-. cbn. now rewrite app_nil_r.
  - unfold configured_only. cbn [List.filter].
    fold (configured_only servo_config items).
    unfold is_configured_item. cbn [fst].
    destruct (Py.int_of_str key) as [c|e]; [|discriminate].
    destruct (servo_config !! c).
    + destruct (make_interpolator track) as [f|e]; [|discriminate].
      rewrite (IH _ _ _ _ _ Hb). cbn [flat_map snd].
      now rewrite app_assoc.
    + destruct (build servo_config items ints times) as [out0 r] eqn:Hb0.
      injection Hb as _ ->. exact (IH _ _ _ _ _ Hb0).
Qed.

(** The duration of the animation is the latest keyframe time of the
    configured channels: it is one of their keyframe times and none is
    later; without any keyframe it is 0.  Tracks of channels that are not
    configured do not count. *)
Theorem duration_is_latest_time keyframes servo_config warnings interpolators
    all_times :
  build servo_config keyframes [] []
    = (warnings, Py.Ok (interpolators, all_times)) ->
  all_times
  = flat_map (fun item => map fst (snd item))
      (configured_only servo_config keyframes) /\
  (forall t, In t all_times -> t <= duration_of all_times) /\
  (all_times <> [] -> In (duration_of all_times) all_times) /\
  (all_times = [] -> duration_of all_times = 0).
Proof.
  intros Hb. split; [exact (build_all_times _ _ _ _ _ _ _ Hb)|].
  destruct all_times as [|t ts]; cbn [duration_of].
  - repeat split; [intros t [] | congruence].
  - pose proof (py_max_upper t ts) as Hu. rewrite List.Forall_forall in Hu.
    repeat split; [exact Hu | intros _; apply py_max_In | discriminate].
Qed.

Lemma duration_is_latest_time_witness :
  In (duration_of [0; 2; 0; 1]) [0; 2; 0; 1].
Proof.
  refine (proj1 (proj2 (proj2 (duration_is_latest_time Demo.keyframes
                                 Demo.servo_config [Warning 9] _ [0; 2; 0; 1]
                                 _))) _).
  - vm_compute. reflexivity.
  - discriminate.
Defined.

(** ** Two keys for one channel *)

Lemma dict_get_set {V : Type} k (v : V) d k' :
  dict_get k' (dict_set k v d)
  = if (k' =? k)%Z then Some v else dict_get k' d.
Proof.
  induction d as [|[k0 v0] d IH]; cbn.
  - reflexivity.
  - destruct (Z.eqb_spec k k0) as [->|Hne]; cbn.
    + destruct (k' =? k0)%Z; reflexivity.
    + rewrite IH. destruct (Z.eqb_spec k' k0) as [->|Hne'];
        [|reflexivity].
      destruct (Z.eqb_spec k0 k); [congruence | reflexivity].
Qed.

Lemma build_other_channels servo_config c items :
  (forall key track, In (key, track) items -> Py.int_of_str key <> Py.Ok c) ->
  forall interpolators all_times out interpolators' all_times',
  build servo_config items interpolators all_times
    = (out, Py.Ok (interpolators', all_times')) ->
  dict_get c interpolators' = dict_get c interpolators.
Proof.
  induction items as [|[key track] items IH]; intros Hne ints times out ints'
    times' Hb; cbn [build] in Hb.
  - congruence.
  - assert (Hne' : forall key track,
               In (key, track) items -> Py.int_of_str key <> Py.Ok c)
      by (intros; eapply Hne; right; eauto).
    pose proof (Hne key track (or_introl eq_refl)) as Hk.
    destruct (Py.int_of_str key) as [c'|e]; [|discriminate].
    destruct (servo_config !! c').
    + destruct (make_interpolator track) as [f|e]; [|discriminate].
      rewrite (IH Hne' _ _ _ _ _ Hb), dict_get_set.
      destruct (Z.eqb_spec c c'); [congruence | reflexivity].
    + destruct (build servo_config items ints times) as [out0 r] eqn:Hb0.
      injection Hb as _ ->. exact (IH Hne' _ _ _ _ _ Hb0).
Qed.

Lemma build_app servo_config pre rest :
  forall interpolators all_times out built,
  build servo_config (pre ++ rest) interpolators all_times
    = (out, Py.Ok built) ->
  exists out1 interpolators1 all_times1 out2,
    build servo_config pre interpolators all_times
      = (out1, Py.Ok (interpolators1, all_times1)) /\
    build servo_config rest interpolators1 all_times1 = (out2, Py.Ok built).
Proof.
  induction pre as [|[key track] pre IH]; intros ints times out built Hb;
    cbn [app build] in *.
  - eauto 10.
  - destruct (Py.int_of_str key) as [c|e]; [|discriminate].
    destruct (servo_config !! c).
    + destruct (make_interpolator track) as [f|e]; [|discriminate]. eauto.
    + destruct (build servo_config (pre ++ rest) ints times) as [out0 r]
        eqn:Hb0.
      injection Hb as _ ->.
      destruct (IH _ _ _ _ Hb0) as (o1 & i1 & t1 & o2 & -> & H2). eauto 10.
Qed.

(** When several keys of [keyframes] denote the same configured channel
    (as "1" and "01" do), the channel is played from the track of the last
    of them. *)
Theorem last_track_is_played servo_config pre key track post c warnings
    interpolators all_times :
  Py.int_of_str key = Py.Ok c ->
  is_Some (servo_config !! c) ->
  (forall key' track',
      In (key', track') post -> Py.int_of_str key' <> Py.Ok c) ->
  build servo_config (pre ++ (key, track) :: post) [] []
    = (warnings, Py.Ok (interpolators, all_times)) ->
  exists f,
    make_interpolator track = Py.Ok f /\
    dict_get c interpolators = Some f.
Proof.
  intros Hk [cfg Hc] Hpost Hb.
  destruct (build_app _ _ _ _ _ _ _ Hb) as (o1 & i1 & t1 & o2 & _ & H2).
  cbn [build] in H2. rewrite Hk, Hc in H2.
  destruct (make_interpolator track) as [f|e]; [|discriminate].
  exists f. split; [reflexivity|].
  rewrite (build_other_channels _ _ _ Hpost _ _ _ _ _ H2), dict_get_set.
  now rewrite Z.eqb_refl.
Qed.

Lemma last_track_is_played_witness :
  exists f,
    make_interpolator [(0, 1)] = Py.Ok f /\
    dict_get 1%Z [(1%Z, Interp.Build [(0, 1)] 1 1)] = Some f.
Proof.
  apply (last_track_is_played Demo.servo_config [("1"%string, [(0, 0); (5, 0)])]
           "01"%string [(0, 1)] [] 1%Z [] _ [0; 5; 0]).
  - reflexivity.
  - exists (500, 2500). reflexivity.
  - intros ? ? [].
  - reflexivity.
Defined.

(** ** The configuration keys of the driver *)

Lemma servo_config_of_other c items :
  (forall k v, In (k, v) items -> Py.int_of_str k <> Py.Ok c) ->
  forall acc m,
  servo_config_of items acc = Py.Ok m -> m !! c = acc !! c.
Proof.
  induction items as [|[k v] items IH]; intros Hne acc m H;
    cbn [servo_config_of] in H.
  - congruence.
  - pose proof (Hne k v (or_introl eq_refl)) as Hk.
    destruct (Py.int_of_str k) as [c'|e]; [|discriminate].
    rewrite (IH (fun k v Hin => Hne k v (or_intror Hin)) _ _ H).
    apply lookup_insert_ne. congruence.
Qed.

Lemma servo_config_of_app pre rest :
  forall acc m,
  servo_config_of (pre ++ rest) acc = Py.Ok m ->
  exists acc', servo_config_of pre acc = Py.Ok acc' /\
               servo_config_of rest acc' = Py.Ok m.
Proof.
  induction pre as [|[k v] pre IH]; intros acc m H;
    cbn [app servo_config_of] in *; [eauto|].
  destruct (Py.int_of_str k); [eauto | discriminate].
Qed.

(** The driver's conversion of the configuration keys to numbers: it fails
    with [ValueError] exactly when some key is no number; otherwise the
    range of a channel is the one given with the last key that denotes it,
    and a channel that no key denotes is not configured. *)
Theorem servo_config_of_lookup items :
  ((exists m, servo_config_of items ∅ = Py.Ok m) <->
   (forall k v, In (k, v) items -> exists c, Py.int_of_str k = Py.Ok c)) /\
  (forall m, servo_config_of items ∅ = Py.Ok m ->
     (forall pre k v post c,
         items = pre ++ (k, v) :: post ->
         Py.int_of_str k = Py.Ok c ->
         (forall k' v', In (k', v') post -> Py.int_of_str k' <> Py.Ok c) ->
         m !! c = Some v) /\
     (forall c,
         (forall k v, In (k, v) items -> Py.int_of_str k <> Py.Ok c) ->
         m !! c = None)).
Proof.
  split.
  - generalize (∅ : gmap Z (Q * Q)) as acc.
    induction items as [|[k v] items IH]; intros acc; cbn [servo_config_of].
    + split; [intros _ ? ? [] | eauto].
    + destruct (Py.int_of_str k) as [c|e] eqn:Hk.
      * rewrite IH. split.
        -- intros H k' v' [[= <- <-]|Hin]; eauto.
        -- intros H k' v' Hin. apply (H k' v'). now right.
      * split; [intros [m H]; discriminate|].
        intros H. destruct (H k v (or_introl eq_refl)) as [c Hc]. congruence.
  - intros m Hm. split.
    + intros pre k v post c -> Hk Hpost.
      destruct (servo_config_of_app _ _ _ _ Hm) as (acc' & _ & H2).
      cbn [servo_config_of] in H2. rewrite Hk in H2.
      rewrite (servo_config_of_other c post Hpost _ _ H2).
      apply lookup_insert_eq.
    + intros c Hne. rewrite (servo_config_of_other c items Hne _ _ Hm).
      apply lookup_empty.
Qed.

Lemma servo_config_of_lookup_witness :
  exists m,
    servo_config_of [("1"%string, (500, 2500)); ("01"%string, (600, 2400))] ∅
      = Py.Ok m /\
    m !! 1%Z = Some (600, 2400).
Proof.
  eexists. split; [reflexivity|].
  refine (proj1 (proj2 (servo_config_of_lookup
                          [("1"%string, (500, 2500));
                           ("01"%string, (600, 2400))]) _ eq_refl)
            [("1"%string, (500, 2500))] "01"%string (600, 2400) [] 1%Z
            eq_refl eq_refl _).
  intros ? ? [].
Defined.

(** ** The loop ends only when the time is up *)

Lemma playback_loop_returned servo_config tween channels start total uniq
    clock :
  forall idx out,
  playback_loop servo_config tween channels start total uniq clock idx
    = (out, Returned) ->
  exists ticks now rest,
    clock = readings ticks ++ now :: rest /\
    Forall (fun ab => fst ab - start <= total) ticks /\
    total < now - start.
Proof.
  induction clock as [|a|a b clock IH] using list_pair_ind; intros idx out;
    cbn [playback_loop]; [discriminate| |].
  - case_ltb total (a - start).
    + intros _. exists [], a, []. repeat split; [constructor | assumption].
    + destruct (tick _ _ _ _ _ _ _) as [o [i|e]]; discriminate.
  - case_ltb total (a - start).
    + intros _. exists [], a, (b :: clock).
      repeat split; [constructor | assumption].
    + destruct (tick _ _ _ _ _ _ _) as [o [i|e]]; [|discriminate].
      destruct (playback_loop _ _ _ _ _ _ clock i) as [out' o'] eqn:Hl.
      intros [= _ ->].
      destruct (IH _ _ Hl) as (ticks & now & rest & -> & Hticks & Hnow).
      exists ((a, b) :: ticks), now, rest.
      repeat split; [constructor; assumption | assumption].
Qed.

(** The animation is never cut short: a run returns only if some reading
    at the start of an iteration is later than the start by more than the
    duration, all iterations before it having run in full. *)
Theorem returns_only_after_duration clock keyframes servo_config tween_func
    trace :
  animate_servos clock keyframes servo_config tween_func = (trace, Returned) ->
  exists warnings interpolators all_times start ticks now rest,
    build servo_config keyframes [] []
      = (warnings, Py.Ok (interpolators, all_times)) /\
    clock = start :: readings ticks ++ now :: rest /\
    Forall (fun ab => fst ab - start <= duration_of all_times) ticks /\
    duration_of all_times < now - start.
Proof.
  intros Hrun.
  destruct (animate_servos_returned _ _ _ _ _ Hrun)
    as (w & ints & times & start & clock' & played & Hb & -> & Hl & _).
  destruct (playback_loop_returned _ _ _ _ _ _ _ _ _ Hl)
    as (ticks & now & rest & -> & Hticks & Hnow).
  exists w, ints, times, start, ticks, now, rest. auto.
Qed.

Lemma returns_only_after_duration_witness :
  exists start ticks now rest,
    Demo.clock = start :: readings ticks ++ now :: rest /\
    2 < now - start.
Proof.
  destruct (returns_only_after_duration Demo.clock Demo.keyframes
              Demo.servo_config ease_in_out_quad
              (fst (animate_servos Demo.clock Demo.keyframes
                      Demo.servo_config ease_in_out_quad)))
    as (w & ints & times & start & ticks & now & rest & Hb & Hc & _ & Hn).
  - vm_compute. reflexivity.
  - exists start, ticks, now, rest. split; [exact Hc|].
    vm_compute in Hb. injection Hb as _ _ <-. exact Hn.
Defined.

(** ** The tweened time stays on the timeline *)

(** With one of the three curves, an iteration whose elapsed time is
    between 0 and the duration queries the interpolators at a time between
    0 and the duration: the loop never extrapolates. *)
Theorem tweened_time_on_timeline (total elapsed : Q) :
  0 < total -> 0 <= elapsed <= total ->
  (exists tw, tweened_time linear total elapsed = Py.Ok tw /\
              0 <= tw <= total) /\
  (exists tw, tweened_time ease_in_out_quad total elapsed = Py.Ok tw /\
              0 <= tw <= total) /\
  (exists tw, tweened_time ease_in_out_cubic total elapsed = Py.Ok tw /\
              0 <= tw <= total).
Proof.
  intros Hpos [H0 H1].
  assert (Hp : 0 <= elapsed / total <= 1).
  { assert (E : elapsed == (elapsed / total) * total) by (field; lra).
    split.
    - apply Qle_shift_div_l; lra.
    - apply Qle_shift_div_r; lra. }
  assert (Hscale : forall v, 0 <= v <= 1 -> 0 <= v * total <= total)
    by (intros v [Ha Hb]; split; nra).
  unfold tweened_time. rewrite (progress_positive _ _ Hpos).
  repeat split; eexists; (split; [reflexivity|]); apply Hscale.
  - exact Hp.
  - now apply quad_range.
  - now apply cubic_range.
Qed.

Lemma tweened_time_on_timeline_witness :
  exists tw, tweened_time ease_in_out_quad 2 0.5 = Py.Ok tw /\ 0 <= tw <= 2.
Proof.
  refine (proj1 (proj2 (tweened_time_on_timeline 2 0.5 _ _))).
  - reflexivity.
  - split; discriminate.
Defined.
